(** * PICO-8 sprite tools: quantizer, grid extractor, sheet packer, encoder

    A shallow embedding of the three scripts of the repository
    ([sprite_extractor.py], [png_extract_all_sprites.py], [png_to_pico8.py])
    and the properties of their algorithmic core.

    Conventions of the embedding:
    - Python integers that are colours, distances or palette indices are [Z];
      list positions, cursors and sizes (never negative in the code) are [nat].
    - A Python tuple or list is a Rocq [list]; [l !! i] is [l[i]] and returns
      [None] where Python raises [IndexError].
    - A function that can raise returns [option]; [None] is the exception.
    - A [for] loop over a sequence that updates local state is [for_in]. *)

From stdpp Require Import base numbers list option strings.
From Stdlib Require Import ZArith Lia ZifyNat Ascii.


(** ** Control flow *)

(** [for a in l: s = body(a, s)], where the body may raise. *)
Fixpoint for_in {A St : Type} (l : list A) (body : A → St → option St) (s : St)
  : option St :=
  match l with
  | [] => Some s
  | a :: l' => s' ← body a s; for_in l' body s'
  end.

(** [range(n)] *)
Definition range (n : nat) : list nat := seq 0 n.

(** [enumerate(l)] *)
Definition enumerate {A : Type} (l : list A) : list (nat * A) :=
  imap (λ i a, (i, a)) l.

(** [a // b], which raises [ZeroDivisionError] when [b] is 0. *)
Definition floordiv (a b : nat) : option nat :=
  if decide (b = 0) then None else Some (a / b).

(** [data[r][c]] on a list of rows. *)
Definition get2 {A : Type} (data : list (list A)) (r c : nat) : option A :=
  row ← data !! r; row !! c.

(** [data[r][c] = v]; the rows are distinct objects in every use below. *)
Definition set2 {A : Type} (data : list (list A)) (r c : nat) (v : A)
  : option (list (list A)) :=
  row ← data !! r;
  if decide (c < length row) then Some (<[r := <[c := v]> row]> data)
  else None.

(** A list of [R] rows of [C] entries each. *)
Definition rect {A : Type} (R C : nat) (data : list (list A)) : Prop :=
  length data = R ∧ Forall (λ row, length row = C) data.

#[global] Instance rect_dec {A : Type} (R C : nat) (data : list (list A)) :
  Decision (rect R C data).
Proof. unfold rect. apply _. Defined.

(** ** The palette and the quantizers *)

Module Palette.
#[local] Open Scope Z_scope.

(** [PICO8_PALETTE], the same table in the three scripts. *)
Definition PICO8_PALETTE : list (list Z) :=
  [ [0; 0; 0];
    [29; 43; 83];
    [126; 37; 83];
    [0; 135; 81];
    [171; 82; 54];
    [95; 87; 79];
    [194; 195; 199];
    [255; 241; 232];
    [255; 0; 77];
    [255; 163; 0];
    [255; 236; 39];
    [0; 228; 54];
    [41; 173; 255];
    [131; 118; 156];
    [255; 119; 168];
    [255; 204; 170] ].

(** [sum((a - b) ** 2 for a, b in zip(rgb, palette_color))] *)
Definition distance (rgb palette_color : list Z) : Z :=
  foldl Z.add 0 (zip_with (λ a b, (a - b) ^ 2) rgb palette_color).

(** [distance < min_distance], where [None] is [float('inf')]. *)
Definition below (distance : Z) (min_distance : option Z) : bool :=
  match min_distance with
  | None => true
  | Some m => distance <? m
  end.

(** The loop [for i, palette_color in enumerate(palette)] over the pair
    [(min_distance, closest_color)]. *)
Fixpoint scan (rgb : list Z) (items : list (nat * list Z))
    (min_distance : option Z) (closest_color : Z) : Z :=
  match items with
  | [] => closest_color
  | (i, palette_color) :: rest =>
      let d := distance rgb palette_color in
      if below d min_distance
      then scan rgb rest (Some d) (Z.of_nat i)
      else scan rgb rest min_distance closest_color
  end.

(** [sprite_extractor.rgb_to_pico8_color] *)
Definition rgb_to_pico8_color (rgb : list Z) : Z :=
  scan rgb (enumerate PICO8_PALETTE) None 0.

(** [find_closest_pico8_color] of [png_to_pico8.py] and
    [png_extract_all_sprites.py] (the two are the same text). *)
Definition find_closest_pico8_color (rgb : list Z) : Z :=
  if decide (length rgb = 4%nat) then
    if decide (rgb !! 3%nat = Some 0) then 0
    else scan (take 3 rgb) (enumerate PICO8_PALETTE) None 0
  else scan rgb (enumerate PICO8_PALETTE) None 0.

End Palette.

(** ** Decoded images *)

Module Img.

(** The decoded image that Pillow hands to the scripts: its size and its
    pixels, row by row. A pixel is the tuple [getpixel] returns: three
    components in mode RGB, four in mode RGBA. *)
Record Image := {
  img_width : nat;
  img_height : nat;
  img_pixels : list (list (list Z))
}.

(** The pixel rows agree with the declared size. *)
Definition wf_image (img : Image) : Prop :=
  rect (img_height img) (img_width img) (img_pixels img).

#[global] Instance wf_image_dec img : Decision (wf_image img).
Proof. unfold wf_image. apply _. Defined.

(** [img.getpixel((x, y))]; [IndexError] outside the image. *)
Definition getpixel (img : Image) (x y : nat) : option (list Z) :=
  get2 (img_pixels img) y x.

(** [img.convert('RGB')] on an RGB or RGBA image: the alpha component is
    discarded. *)
Definition convert_RGB (img : Image) : Image :=
  {| img_width := img_width img;
     img_height := img_height img;
     img_pixels :=
       (λ row : list (list Z), take 3 <$> row) <$> img_pixels img |}.

(** [img.convert('RGBA')] on an RGB or RGBA image: an opaque alpha is added
    to a pixel that has none. *)
Definition convert_RGBA (img : Image) : Image :=
  {| img_width := img_width img;
     img_height := img_height img;
     img_pixels :=
       (λ row : list (list Z),
          (λ px, if decide (length px = 3) then px ++ [255%Z] else px) <$> row)
       <$> img_pixels img |}.

(** [img.crop((left, top, right, bottom))]: the region as an image of its
    own; Pillow fills what lies outside the source with zeros. *)
Definition crop (img : Image) (left top right bottom : nat) : Image :=
  {| img_width := right - left;
     img_height := bottom - top;
     img_pixels :=
       (λ py, (λ px, default [0%Z; 0%Z; 0%Z]
                       (getpixel img (left + px) (top + py)))
                <$> range (right - left)) <$> range (bottom - top) |}.

(** The resampling filters of [Image.resize]. *)
Inductive Resample := NEAREST | BILINEAR | BICUBIC.

End Img.

(** ** Grid extraction ([sprite_extractor.py]) *)

Module Extractor.
Import Palette Img.

(** The dictionary appended to [sprites]. *)
Record Sprite := {
  sp_id : nat;
  sp_x : nat;
  sp_y : nat;
  sp_size : nat;
  sp_data : list (list Z)
}.

(** The two inner loops over [py] and [px] that fill [sprite_data]. *)
Definition quantize_region (sprite_img : Image) (sprite_size : nat)
  : option (list (list Z)) :=
  mapM (λ py,
    mapM (λ px,
      rgb ← getpixel sprite_img px py;
      Some (rgb_to_pico8_color rgb))
    (range sprite_size))
  (range sprite_size).

(** The body of the [try] block of [extract_sprites_from_png], from the
    opened image on. *)
Definition extract_sprites_body (opened : Image) (sprite_size : nat)
  : option (list Sprite) :=
  let image := convert_RGB opened in
  let width := img_width image in
  let height := img_height image in
  sprites_x ← floordiv width sprite_size;
  sprites_y ← floordiv height sprite_size;
  for_in (range sprites_y) (λ y sprites,
    for_in (range sprites_x) (λ x sprites,
      let left := x * sprite_size in
      let top := y * sprite_size in
      let right := left + sprite_size in
      let bottom := top + sprite_size in
      let sprite_img := crop image left top right bottom in
      sprite_data ← quantize_region sprite_img sprite_size;
      Some (sprites ++ [ {| sp_id := length sprites;
                            sp_x := x;
                            sp_y := y;
                            sp_size := sprite_size;
                            sp_data := sprite_data |} ]))
    sprites)
  [].

(** [extract_sprites_from_png(png_path, sprite_size)]. [file] is what
    [Image.open(png_path)] gives, [None] when it raises; any exception ends
    in the handler, which returns the empty list. *)
Definition extract_sprites_from_png (file : option Image) (sprite_size : nat)
  : list Sprite :=
  default [] (opened ← file; extract_sprites_body opened sprite_size).

End Extractor.
(** ** Sheet packing ([sprite_extractor.py]) *)

Module Packer.
Import Extractor.

Definition sheet_size : nat := 128.
Definition grid_size : nat := sheet_size / 8.

(** [[[0 for _ in range(sheet_size)] for _ in range(sheet_size)]] *)
Definition blank_sheet : list (list Z) :=
  replicate sheet_size (replicate sheet_size 0%Z).

(** The innermost pair of loops, [for y in range(8): for x in range(8)],
    copying the 8x8 block of [data] at [(src_x0, src_y0)] to the block of
    the sheet at [(dst_x0, dst_y0)]. *)
Definition copy_block (data : list (list Z)) (src_x0 src_y0 dst_x0 dst_y0 : nat)
    (sheet : list (list Z)) : option (list (list Z)) :=
  for_in (range 8) (λ y sheet,
    for_in (range 8) (λ x sheet,
      let src_y := src_y0 + y in
      let src_x := src_x0 + x in
      v ← get2 data src_y src_x;
      set2 sheet (dst_y0 + y) (dst_x0 + x) v)
    sheet)
  sheet.

(** The loops [for chunk_y in range(n): for chunk_x in range(n)] of the
    16x16 branch ([n = 2]) and of the 32x32 branch ([n = 4]). *)
Definition copy_chunks (n : nat) (data : list (list Z)) (sheet_x sheet_y : nat)
    (sheet : list (list Z)) : option (list (list Z)) :=
  for_in (range n) (λ chunk_y sheet,
    for_in (range n) (λ chunk_x sheet,
      let chunk_sheet_x := sheet_x + chunk_x * 8 in
      let chunk_sheet_y := sheet_y + chunk_y * 8 in
      copy_block data (chunk_x * 8) (chunk_y * 8) chunk_sheet_x chunk_sheet_y
        sheet)
    sheet)
  sheet.

(** A record of one placement, kept beside the sheet for the proofs: the
    position of the sprite in the input, the cursor it was placed at and
    its footprint. The code itself keeps no such log. *)
Record Placement := {
  pl_pos : nat;
  pl_cursor : nat;
  pl_footprint : nat
}.

#[global] Instance Placement_eq_dec : EqDecision Placement.
Proof. solve_decision. Defined.

Definition pl_cell_x (p : Placement) : nat := pl_cursor p mod grid_size.
Definition pl_cell_y (p : Placement) : nat := pl_cursor p / grid_size.

(** The 8x8 cells of the sheet a placement writes: the [F] by [F] block
    whose top-left cell is the cursor. *)
Definition cells (p : Placement) : list (nat * nat) :=
  dy ← range (pl_footprint p);
  dx ← range (pl_footprint p);
  [(pl_cell_x p + dx, pl_cell_y p + dy)].

(** The state of the loop: [sprite_index], [sprite_sheet] and the log. *)
Record PackState := {
  sprite_index : nat;
  sprite_sheet : list (list Z);
  placed : list Placement
}.

Definition initial : PackState :=
  {| sprite_index := 0; sprite_sheet := blank_sheet; placed := [] |}.

(** [if (sprite_index % grid_size) == 0: sprite_index += grid_size] *)
Definition skip_row (sprite_index : nat) : nat :=
  if decide (sprite_index mod grid_size = 0) then sprite_index + grid_size
  else sprite_index.

(** One iteration of the loop after the capacity test, for the sprite at
    position [pos] of the input. A sprite that does not fit leaves the state
    as it is ([continue]); so does a size other than 8, 16 and 32. *)
Definition place_sprite (pos : nat) (sprite : Sprite) (st : PackState)
  : option PackState :=
  let idx := sprite_index st in
  let sheet_x := (idx mod grid_size) * 8 in
  let sheet_y := (idx / grid_size) * 8 in
  if decide (sp_size sprite = 8) then
    sheet ← copy_block (sp_data sprite) 0 0 sheet_x sheet_y (sprite_sheet st);
    Some {| sprite_index := idx + 1;
            sprite_sheet := sheet;
            placed := placed st ++
              [ {| pl_pos := pos; pl_cursor := idx; pl_footprint := 1 |} ] |}
  else if decide (sp_size sprite = 16) then
    if decide (grid_size - 2 < idx mod grid_size ∨ grid_size - 2 < idx / grid_size)
    then Some st
    else
      sheet ← copy_chunks 2 (sp_data sprite) sheet_x sheet_y (sprite_sheet st);
      Some {| sprite_index := skip_row (idx + 2);
              sprite_sheet := sheet;
              placed := placed st ++
                [ {| pl_pos := pos; pl_cursor := idx; pl_footprint := 2 |} ] |}
  else if decide (sp_size sprite = 32) then
    if decide (grid_size - 4 < idx mod grid_size ∨ grid_size - 4 < idx / grid_size)
    then Some st
    else
      sheet ← copy_chunks 4 (sp_data sprite) sheet_x sheet_y (sprite_sheet st);
      Some {| sprite_index := skip_row (skip_row (skip_row (idx + 4)));
              sprite_sheet := sheet;
              placed := placed st ++
                [ {| pl_pos := pos; pl_cursor := idx; pl_footprint := 4 |} ] |}
  else Some st.

(** [for sprite in sprites], with the [break] once the cursor has reached
    [grid_size * grid_size]. *)
Fixpoint pack_loop (pos : nat) (sprites : list Sprite) (st : PackState)
  : option PackState :=
  match sprites with
  | [] => Some st
  | sprite :: rest =>
      if decide (grid_size * grid_size ≤ sprite_index st) then Some st
      else st' ← place_sprite pos sprite st; pack_loop (S pos) rest st'
  end.

Definition pack_run (sprites : list Sprite) : option PackState :=
  pack_loop 0 sprites initial.

(** [sprites_to_pico8_format(sprites, sprite_size)]; the second argument
    is not used by the code. *)
Definition sprites_to_pico8_format (sprites : list Sprite) (sprite_size : nat)
  : option (list (list Z)) :=
  sprite_sheet <$> pack_run sprites.

(** A sprite whose [data] is [size] rows of [size] indices, as the
    extractor builds them. *)
Definition wf_sprite (sprite : Sprite) : Prop :=
  rect (sp_size sprite) (sp_size sprite) (sp_data sprite).

#[global] Instance wf_sprite_dec sprite : Decision (wf_sprite sprite).
Proof. unfold wf_sprite. apply _. Defined.

(** No two entries of the log share a cell. *)
Definition no_overlap (log : list Placement) : Prop :=
  ∀ i j p q c, i ≠ j → log !! i = Some p → log !! j = Some q →
    c ∈ cells p → c ∉ cells q.

End Packer.
(** ** Hexadecimal text *)

Module Hex.
#[local] Open Scope Z_scope.

Definition hex_digit (d : Z) : ascii :=
  match d with
  | 0 => "0" | 1 => "1" | 2 => "2" | 3 => "3"
  | 4 => "4" | 5 => "5" | 6 => "6" | 7 => "7"
  | 8 => "8" | 9 => "9" | 10 => "a" | 11 => "b"
  | 12 => "c" | 13 => "d" | 14 => "e" | _ => "f"
  end%char.

(** The lowercase hexadecimal digits of [n >= 0], most significant first,
    in front of [acc]. A number below [16 ^ fuel] needs no more than [fuel]
    steps. *)
Fixpoint hex_digits_from (fuel : nat) (n : Z) (acc : string) : string :=
  match fuel with
  | O => acc
  | S fuel' =>
      let acc' := String (hex_digit (n mod 16)) acc in
      if n / 16 =? 0 then acc' else hex_digits_from fuel' (n / 16) acc'
  end.

Definition hex_digits (n : Z) : string :=
  hex_digits_from (S (Z.to_nat (Z.log2 n))) n EmptyString.

(** [hex(n)] *)
Definition py_hex (n : Z) : string :=
  if n <? 0 then "-0x" +:+ hex_digits (- n) else "0x" +:+ hex_digits n.

(** [s[k:]] *)
Fixpoint str_from (k : nat) (s : string) : string :=
  match k, s with
  | S k', String _ s' => str_from k' s'
  | _, _ => s
  end.

(** [f"{n:02x}"]: at least two characters, padded with zeros on the left;
    a sign counts as a character. *)
Definition format_02x (n : Z) : string :=
  if n <? 0 then "-" +:+ hex_digits (- n)
  else if n <? 16 then "0" +:+ hex_digits n
  else hex_digits n.

End Hex.

(** ** Sheet encoding *)

Module Encoder.
Import Hex Extractor Packer Img.

(** One line of [save_pico8_sprite_data]: the loop
    [for x in range(0, 128, 2)] over [line]. *)
Definition encode_line (sprite_sheet : list (list Z)) (y : nat) : option string :=
  for_in ((λ k, 2 * k) <$> range 64) (λ x line,
    pixel1 ← get2 sprite_sheet y x;
    pixel2 ← (if decide (x + 1 < 128) then get2 sprite_sheet y (x + 1)
              else Some 0%Z);
    let hex_byte := Z.lor (Z.shiftl pixel1 4) pixel2 in
    Some (line +:+ format_02x hex_byte))
  EmptyString.

(** The 128 lines written after [__gfx__]. *)
Definition gfx_lines (sprite_sheet : list (list Z)) : option (list string) :=
  mapM (encode_line sprite_sheet) (range 128).

(** The lines written before the sheet: two comments, an empty line and
    the section name. *)
Definition file_header : list string :=
  [ "-- PICO-8 Sprite Data";
    "-- Generated by sprite_extractor.py";
    EmptyString;
    "__gfx__" ].

(** [save_pico8_sprite_data(sprite_sheet, output_path)]: the lines of the
    file it writes. *)
Definition save_pico8_sprite_data (sprite_sheet : list (list Z))
  : option (list string) :=
  lines ← gfx_lines sprite_sheet;
  Some (file_header ++ lines).

(** [sprite_to_hex_string(sprite_data)] of [png_extract_all_sprites.py] and
    [png_to_pico8.py]: one [hex(color)[2:]] per entry of each row. *)
Definition sprite_to_hex_string (sprite_data : list (list Z)) : list string :=
  (λ row : list Z,
     String.concat EmptyString ((λ color, str_from 2 (py_hex color)) <$> row))
  <$> sprite_data.

(** [main] of [sprite_extractor.py] from the opened image to the lines of
    the [.p8] file; [None] when it writes none (no sprite extracted, or an
    exception). *)
Definition main (file : option Image) (size : nat) : option (list string) :=
  match extract_sprites_from_png file size with
  | [] => None
  | sprites =>
      sprite_sheet ← sprites_to_pico8_format sprites size;
      save_pico8_sprite_data sprite_sheet
  end.

End Encoder.
(** ** The 16x16 producer ([png_extract_all_sprites.py]) *)

Module Split.
Import Palette Img Encoder.

(** [extract_16x16_sprite(img, x_offset, y_offset)] *)
Definition extract_16x16_sprite (img : Image) (x_offset y_offset : nat)
  : option (list (list Z)) :=
  mapM (λ y,
    mapM (λ x,
      let pixel_x := x_offset + x in
      let pixel_y := y_offset + y in
      if decide (img_width img ≤ pixel_x ∨ img_height img ≤ pixel_y)
      then Some 0%Z
      else pixel ← getpixel img pixel_x pixel_y;
           Some (find_closest_pico8_color pixel))
    (range 16))
  (range 16).

(** The dictionary [split_16x16_to_8x8] returns. *)
Record Quadrants := {
  top_left : list (list Z);
  top_right : list (list Z);
  bottom_left : list (list Z);
  bottom_right : list (list Z)
}.

(** [[[0]*8 for _ in range(8)]] *)
Definition blank8 : list (list Z) := replicate 8 (replicate 8 0%Z).

(** [split_16x16_to_8x8(sprite_data)] *)
Definition split_16x16_to_8x8 (sprite_data : list (list Z)) : option Quadrants :=
  for_in (range 16) (λ y sprites,
    for_in (range 16) (λ x sprites,
      color ← get2 sprite_data y x;
      if decide (y < 8 ∧ x < 8) then
        q ← set2 (top_left sprites) y x color;
        Some {| top_left := q; top_right := top_right sprites;
                bottom_left := bottom_left sprites;
                bottom_right := bottom_right sprites |}
      else if decide (y < 8 ∧ 8 ≤ x) then
        q ← set2 (top_right sprites) y (x - 8) color;
        Some {| top_left := top_left sprites; top_right := q;
                bottom_left := bottom_left sprites;
                bottom_right := bottom_right sprites |}
      else if decide (8 ≤ y ∧ x < 8) then
        q ← set2 (bottom_left sprites) (y - 8) x color;
        Some {| top_left := top_left sprites; top_right := top_right sprites;
                bottom_left := q;
                bottom_right := bottom_right sprites |}
      else
        q ← set2 (bottom_right sprites) (y - 8) (x - 8) color;
        Some {| top_left := top_left sprites; top_right := top_right sprites;
                bottom_left := bottom_left sprites;
                bottom_right := q |})
    sprites)
  {| top_left := blank8; top_right := blank8;
     bottom_left := blank8; bottom_right := blank8 |}.

(** The dictionary appended to [all_sprites]. *)
Record SplitSprite := {
  ss_index : nat;
  ss_position : nat * nat;
  ss_quadrants : Quadrants
}.

(** [extract_all_sprites(png_path, sprite_size)]; [file] is what
    [Image.open] gives, [None] for a missing file or for a file that does
    not decode. *)
Definition extract_all_sprites (file : option Image) (sprite_size : nat)
  : option (list SplitSprite) :=
  opened ← file;
  let img := convert_RGBA opened in
  sprites_horizontal ← floordiv (img_width img) sprite_size;
  sprites_vertical ← floordiv (img_height img) sprite_size;
  for_in (range sprites_vertical) (λ row all_sprites,
    for_in (range sprites_horizontal) (λ col all_sprites,
      let x_offset := col * sprite_size in
      let y_offset := row * sprite_size in
      sprite_16x16 ← extract_16x16_sprite img x_offset y_offset;
      split_sprites ← split_16x16_to_8x8 sprite_16x16;
      let sprite_index := row * sprites_horizontal + col in
      Some (all_sprites ++ [ {| ss_index := sprite_index;
                                ss_position := (col, row);
                                ss_quadrants := split_sprites |} ]))
    all_sprites)
  [].

(** [[['00000000' for _ in range(16)] for _ in range(128)]] *)
Definition blank_text_sheet : list (list string) :=
  replicate 128 (replicate 16 "00000000").

(** One of the four loops [for i, line in enumerate(..._hex)] that write the
    lines of a quadrant into the column of slot [sprite_id]. *)
Definition place_quadrant (quadrant : list (list Z)) (sprite_id : nat)
    (sprite_sheet : list (list string)) : option (list (list string)) :=
  let row := sprite_id / 16 in
  let col := sprite_id mod 16 in
  for_in (enumerate (sprite_to_hex_string quadrant)) (λ '(i, line) sprite_sheet,
    if decide (row * 8 + i < 128) then set2 sprite_sheet (row * 8 + i) col line
    else Some sprite_sheet)
  sprite_sheet.

(** The four slots of the sprite of index [index]:
    [tl_sprite_id], [tr_sprite_id], [bl_sprite_id], [br_sprite_id]. *)
Definition quadrant_slots (index : nat) : list nat :=
  let base_sprite := index * 2 in
  [base_sprite; base_sprite + 1; base_sprite + 16; base_sprite + 17].

(** The body of [for sprite in sprites]. *)
Definition place_split_sprite (sprite : SplitSprite)
    (sprite_sheet : list (list string)) : option (list (list string)) :=
  let index := ss_index sprite in
  let base_sprite := index * 2 in
  let tl_sprite_id := base_sprite in
  let tr_sprite_id := base_sprite + 1 in
  let bl_sprite_id := base_sprite + 16 in
  let br_sprite_id := base_sprite + 17 in
  sheet ← place_quadrant (top_left (ss_quadrants sprite)) tl_sprite_id sprite_sheet;
  sheet ← place_quadrant (top_right (ss_quadrants sprite)) tr_sprite_id sheet;
  sheet ← place_quadrant (bottom_left (ss_quadrants sprite)) bl_sprite_id sheet;
  place_quadrant (bottom_right (ss_quadrants sprite)) br_sprite_id sheet.

(** The sheet of text cells [generate_gfx_output] has built when its loop
    ends. *)
Definition gfx_text_sheet (sprites : list SplitSprite)
  : option (list (list string)) :=
  for_in sprites place_split_sprite blank_text_sheet.

(** [generate_gfx_output(sprites)]: the lines of [output_content]. *)
Definition generate_gfx_output (sprites : list SplitSprite)
  : option (list string) :=
  sprite_sheet ← gfx_text_sheet sprites;
  Some ("__gfx__" :: (String.concat EmptyString <$> sprite_sheet)).

End Split.
(** ** The 16x16 converter ([png_to_pico8.py]) *)

Module Converter.
Import Palette Img.

Section WithResize.

(** Pillow's [img.resize((w, h), resample)]. *)
Variable resize : Image → nat → nat → Resample → Image.

(** [convert_png_to_pico8(png_path)]; [file] is what [Image.open] gives,
    [None] for a missing file or for a file that does not decode. The
    function returns [None] on any exception. *)
Definition convert_png_to_pico8 (file : option Image)
  : option (list (list Z)) :=
  opened ← file;
  let img := convert_RGBA opened in
  let img :=
    if decide ((img_width img, img_height img) ≠ (16, 16))
    then resize img 16 16 NEAREST
    else img in
  mapM (λ y,
    mapM (λ x,
      pixel ← getpixel img x y;
      Some (find_closest_pico8_color pixel))
    (range 16))
  (range 16).

End WithResize.

(** Nearest-neighbour resampling as Pillow computes it: the output pixel
    [(x, y)] is the source pixel under the centre of the output pixel,
    [floor((x + 1/2) * width / w)]. *)
Definition nearest_resize (img : Image) (w h : nat) (_ : Resample) : Image :=
  {| img_width := w;
     img_height := h;
     img_pixels :=
       (λ y, (λ x, default [0%Z; 0%Z; 0%Z; 0%Z]
                     (getpixel img (((2 * x + 1) * img_width img) / (2 * w))
                                   (((2 * y + 1) * img_height img) / (2 * h))))
               <$> range w) <$> range h |}.

End Converter.

(** ** Vocabulary of the statements *)

Module Vocabulary.
Import Palette Img Extractor Packer Hex Split.

(** [data'] is [data] with the positions in [P] overwritten by [f]. *)
Definition updated {A : Type} (R C : nat) (P : nat → nat → Prop)
    (f : nat → nat → option A) (data data' : list (list A)) : Prop :=
  rect R C data' ∧
  ∀ r c, (P r c → get2 data' r c = f r c) ∧
         (¬ P r c → get2 data' r c = get2 data r c).

(** Every entry a copy reads is there. *)
Definition readable (data : list (list Z)) (x0 y0 n : nat) : Prop :=
  ∀ y x, y < n → x < n → is_Some (get2 data (y0 + y) (x0 + x)).

(** The sprite's footprint fits at cursor [idx]:
    [cellX + F <= 16] and [cellY + F <= 16]. *)
Definition fits (F idx : nat) : Prop :=
  idx mod grid_size + F ≤ grid_size ∧ idx / grid_size + F ≤ grid_size.

(** The cursor after a placement of footprint [F] at [idx]: [F] cells to the
    right, and from the end of the row to the start of the row [F] rows
    below. *)
Definition advance (F idx : nat) : nat :=
  if decide (idx mod grid_size + F = grid_size)
  then grid_size * (idx / grid_size + F)
  else idx + F.

(** The pixels of the [F] by [F] cell block at cursor [idx]. *)
Definition in_block (F idx r c : nat) : Prop :=
  idx / grid_size * 8 ≤ r < idx / grid_size * 8 + 8 * F ∧
  idx mod grid_size * 8 ≤ c < idx mod grid_size * 8 + 8 * F.

(** The outcome of one iteration: the sprite is dropped and nothing
    changes, or it is placed at the cursor. *)
Definition step_outcome (pos : nat) (sprite : Sprite) (st st' : PackState) : Prop :=
  st' = st
  ∨ ∃ F, (F = 1 ∨ F = 2 ∨ F = 4) ∧ sp_size sprite = 8 * F ∧
      fits F (sprite_index st) ∧
      sprite_index st' = advance F (sprite_index st) ∧
      placed st' = placed st ++
        [ {| pl_pos := pos; pl_cursor := sprite_index st; pl_footprint := F |} ].

(** The cursor is a multiple of the footprint in both directions. *)
Definition aligned (F idx : nat) : Prop :=
  (idx mod grid_size) mod F = 0 ∧ (idx / grid_size) mod F = 0.

(** The invariant of a run on sprites of one footprint. *)
Definition uniform_inv (F : nat) (st : PackState) : Prop :=
  aligned F (sprite_index st) ∧
  (∀ p, p ∈ placed st →
     pl_footprint p = F ∧ aligned F (pl_cursor p) ∧
     pl_cursor p < sprite_index st) ∧
  no_overlap (placed st).

(** The pixel [(x, y)] of the cell of slot [k] of a sheet. *)
Definition cell_pixel (sheet : list (list Z)) (k y x : nat) : option Z :=
  get2 sheet (k / grid_size * 8 + y) (k mod grid_size * 8 + x).

(** A sheet as the encoder expects it: 128 rows of 128 palette indices. *)
Definition wf_sheet (sheet : list (list Z)) : Prop :=
  rect 128 128 sheet ∧ Forall (Forall (λ v, 0 ≤ v ≤ 15)%Z) sheet.

#[global] Instance wf_sheet_dec sheet : Decision (wf_sheet sheet).
Proof. unfold wf_sheet. apply _. Defined.

(** Every pixel of the cell of slot [k] is [v]. *)
Definition cell_filled (sheet : list (list Z)) (v : Z) (k : nat) : Prop :=
  Forall (λ y, Forall (λ x, cell_pixel sheet k y x = Some v) (range 8)) (range 8).

#[global] Instance cell_filled_dec sheet v k : Decision (cell_filled sheet v k).
Proof. unfold cell_filled. apply _. Defined.

(** One digit per pixel, as [sprite_to_hex_string] formats it. *)
Definition digit (color : Z) : string := str_from 2 (py_hex color).

(** [n] copies of a character. *)
Fixpoint repeat_char (n : nat) (c : ascii) : string :=
  match n with
  | O => EmptyString
  | S n' => String c (repeat_char n' c)
  end.

(** The sprite that grid extraction builds for the cell [(gx, gy)] of an
    RGB image cut into [cols] columns of cells of side [S]. *)
Definition cell_sprite (image : Image) (S cols gx gy : nat) : Sprite :=
  {| sp_id := gy * cols + gx;
     sp_x := gx;
     sp_y := gy;
     sp_size := S;
     sp_data :=
       (λ py, (λ px, rgb_to_pico8_color
                       (default [0; 0; 0]%Z
                          (getpixel image (gx * S + px) (gy * S + py))))
                <$> range S) <$> range S |}.

(** The cells of the grid in row-major order. *)
Definition grid_sprites (image : Image) (S cols rows : nat) : list Sprite :=
  gy ← range rows; (λ gx, cell_sprite image S cols gx gy) <$> range cols.

(** The quadrants of a sprite are four grids of 8 rows. *)
Definition wf_quadrants (q : Quadrants) : Prop :=
  length (top_left q) = 8 ∧ length (top_right q) = 8 ∧
  length (bottom_left q) = 8 ∧ length (bottom_right q) = 8.

End Vocabulary.

(** ** Inputs of the scenarios *)

Module Examples.
Import Img Extractor Packer Split.

(** A sprite of one colour. *)
Definition solid (size : nat) (color : Z) (id : nat) : Sprite :=
  {| sp_id := id; sp_x := id; sp_y := 0; sp_size := size;
     sp_data := replicate size (replicate size color) |}.

(** The 8x8 sprite number [k], told from the others by the three
    hexadecimal digits of [k] that start each of its rows. *)
Definition numbered (k : nat) : Sprite :=
  {| sp_id := k; sp_x := k; sp_y := 0; sp_size := 8;
     sp_data :=
       replicate 8 ([Z.of_nat (k / 256); Z.of_nat (k / 16 mod 16);
                     Z.of_nat (k mod 16)] ++ replicate 5 0%Z) |}.

(** One 32x32 sprite followed by one 8x8 sprite. *)
Definition big_then_small : list Sprite := [solid 32 1 0; solid 8 2 1].

(** One 32x32 sprite followed by seven 16x16 sprites: six of them reach
    the end of the first row of cells, the seventh starts the next free
    row. *)
Definition mixed_sizes : list Sprite :=
  solid 32 1 0 :: ((λ k, solid 16 2 k) <$> seq 1 7).

(** Three 16x16 sprites. *)
Definition three_16x16 : list Sprite := [solid 16 1 0; solid 16 2 1; solid 16 3 2].

(** 257 distinct 8x8 sprites. *)
Definition sprites_257 : list Sprite := numbered <$> range 257.

(** An image of one pixel value. *)
Definition solid_image (w h : nat) (pixel : list Z) : Image :=
  {| img_width := w; img_height := h;
     img_pixels := replicate h (replicate w pixel) |}.

(** The 16x16 image of pure palette colour 8. *)
Definition red_16x16 : Image := solid_image 16 16 [255; 0; 77]%Z.

(** An 8x8 RGBA image, transparent everywhere, with the RGB of colour 8. *)
Definition transparent_red_8x8 : Image := solid_image 8 8 [255; 0; 77; 0]%Z.

(** A strip of nine 16x16 sprites, 144 by 16 pixels: eight of palette
    colour 1, the ninth of palette colour 2. *)
Definition strip_144x16 : Image :=
  {| img_width := 144; img_height := 16;
     img_pixels :=
       replicate 16 (replicate 128 [29; 43; 83; 255]%Z ++
                     replicate 16 [126; 37; 83; 255]%Z) |}.

(** A 128x128 sheet in which every palette index occurs. *)
Definition gradient_sheet : list (list Z) :=
  (λ r, (λ c, Z.of_nat ((r + c) mod 16)) <$> range 128) <$> range 128.

End Examples.

(* ================================================================== *)
(** * Properties *)

(** ** The quantizers *)

Module PaletteFacts.
Import Palette.
#[local] Open Scope Z_scope.

Lemma distance_triple r g b pr pg pb :
  distance [r; g; b] [pr; pg; pb] = (r - pr) ^ 2 + (g - pg) ^ 2 + (b - pb) ^ 2.
Proof. unfold distance; simpl. lia. Qed.

(** What [scan] returns: either nothing in [items] was below the running
    minimum, or the result is the first item of least distance. *)
Lemma scan_spec rgb items m c :
  (scan rgb items m c = c ∧
   ∀ k i pc, items !! k = Some (i, pc) → below (distance rgb pc) m = false)
  ∨ (∃ k i pc, items !! k = Some (i, pc) ∧ scan rgb items m c = Z.of_nat i ∧
       below (distance rgb pc) m = true ∧
       (∀ k' i' pc', items !! k' = Some (i', pc') →
          distance rgb pc ≤ distance rgb pc') ∧
       (∀ k' i' pc', (k' < k)%nat → items !! k' = Some (i', pc') →
          distance rgb pc < distance rgb pc')).
Proof.
  revert m c. induction items as [|[i pc] rest IH]; intros m c; simpl.
  - left. split; [done|]. intros k i pc Hk. by rewrite lookup_nil in Hk.
  - destruct (below (distance rgb pc) m) eqn:Hb.
    + right. destruct (IH (Some (distance rgb pc)) (Z.of_nat i)) as [[Heq Hall]|Hex].
      * exists 0%nat, i, pc. repeat split; [done..| |].
        -- intros [|k'] i' pc' Hk'; simpl in Hk'.
           ++ inversion Hk'; lia.
           ++ specialize (Hall _ _ _ Hk'). simpl in Hall. lia.
        -- intros k' i' pc' Hlt. lia.
      * destruct Hex as (k & i0 & pc0 & Hk & Hres & Hlt & Hmin & Hfirst).
        exists (S k), i0, pc0. simpl in Hlt.
        repeat split; [done..| | |].
        -- destruct m as [m|]; simpl in *; [lia|done].
        -- intros [|k'] i' pc' Hk'; simpl in Hk'.
           ++ inversion Hk'; subst. lia.
           ++ eauto.
        -- intros [|k'] i' pc' Hk' Hl; simpl in Hl.
           ++ inversion Hl; subst. lia.
           ++ eapply Hfirst; [|done]. lia.
    + destruct (IH m c) as [[Heq Hall]|Hex].
      * left. split; [done|]. intros [|k] i' pc' Hk; simpl in Hk.
        -- by inversion Hk; subst.
        -- eauto.
      * right. destruct Hex as (k & i0 & pc0 & Hk & Hres & Hlt & Hmin & Hfirst).
        exists (S k), i0, pc0. repeat split; [done..| |].
        -- intros [|k'] i' pc' Hk'; simpl in Hk'.
           ++ inversion Hk'; subst.
              destruct m as [m|]; simpl in *; [lia|done].
           ++ eauto.
        -- intros [|k'] i' pc' Hk' Hl; simpl in Hl.
           ++ inversion Hl; subst.
              destruct m as [m|]; simpl in *; [lia|done].
           ++ eapply Hfirst; [|done]. lia.
Qed.

Lemma enumerate_lookup {A} (l : list A) k i a :
  enumerate l !! k = Some (i, a) ↔ i = k ∧ l !! k = Some a.
Proof.
  unfold enumerate. rewrite list_lookup_imap.
  destruct (l !! k) as [a'|]; simpl.
  - split; [by intros [= <- <-] | by intros [-> [= ->]]].
  - split; [done | by intros [_ ?]].
Qed.

(** The scan over a non-empty palette, started at infinity, returns the
    first index of least distance. *)
Lemma scan_first_min rgb (palette : list (list Z)) :
  palette ≠ [] →
  ∃ k pc, scan rgb (enumerate palette) None 0 = Z.of_nat k ∧
    palette !! k = Some pc ∧
    (∀ j pcj, palette !! j = Some pcj → distance rgb pc ≤ distance rgb pcj) ∧
    (∀ j pcj, (j < k)%nat → palette !! j = Some pcj →
       distance rgb pc < distance rgb pcj).
Proof.
  intros Hne.
  destruct (scan_spec rgb (enumerate palette) None 0) as [[_ Hall]|Hex].
  - destruct palette as [|pc0 rest]; [done|].
    specialize (Hall 0%nat 0%nat pc0 eq_refl). done.
  - destruct Hex as (k & i & pc & Hk & Hres & _ & Hmin & Hfirst).
    apply enumerate_lookup in Hk as [-> Hk].
    exists k, pc. repeat split; [done..| |].
    + intros j pcj Hj. eapply (Hmin j j). by apply enumerate_lookup.
    + intros j pcj Hlt Hj.
      eapply (Hfirst j j); [done|]. by apply enumerate_lookup.
Qed.

(** Whatever the tuple, the index is one of the sixteen. *)
Lemma scan_palette_range rgb :
  0 ≤ scan rgb (enumerate PICO8_PALETTE) None 0 ≤ 15.
Proof.
  destruct (scan_first_min rgb PICO8_PALETTE) as (k & pc & -> & Hk & _); [done|].
  apply lookup_lt_Some in Hk. simpl in Hk. lia.
Qed.

Lemma rgb_to_pico8_color_range rgb : 0 ≤ rgb_to_pico8_color rgb ≤ 15.
Proof. apply scan_palette_range. Qed.

Lemma find_closest_pico8_color_range rgb : 0 ≤ find_closest_pico8_color rgb ≤ 15.
Proof.
  unfold find_closest_pico8_color.
  repeat case_decide; try apply scan_palette_range. lia.
Qed.

(** The distance reads at most three components of the sample: [zip] stops
    at the end of the palette entry. *)
Lemma distance_take3 rgb pc : length pc = 3%nat → distance (take 3 rgb) pc = distance rgb pc.
Proof.
  intros Hpc. destruct pc as [|p0 [|p1 [|p2 [|? ?]]]]; try done.
  destruct rgb as [|r0 [|r1 [|r2 rest]]]; try done.
  unfold distance. simpl. by destruct rest.
Qed.

Lemma scan_take3 rgb items m c :
  Forall (λ it, length it.2 = 3%nat) items →
  scan (take 3 rgb) items m c = scan rgb items m c.
Proof.
  intros Hall. revert m c.
  induction Hall as [|[i pc] rest Hpc _ IH]; intros m c; simpl; [done|].
  simpl in Hpc. rewrite distance_take3 by done.
  destruct (below _ _); apply IH.
Qed.

(** C7: for every RGB triple, [rgb_to_pico8_color] (and with it
    [find_closest_pico8_color], which agrees with it on triples) returns an
    index in [0,15] of a palette entry whose squared Euclidean distance to
    the input is least, and every palette entry of lower index is strictly
    farther (ties go to the lowest index). Being a function, it gives the
    same index on the same input. *)
Theorem rgb_to_pico8_color_nearest (r g b : Z) :
  ∃ (k : nat) (pr pg pb : Z),
    rgb_to_pico8_color [r; g; b] = Z.of_nat k ∧
    find_closest_pico8_color [r; g; b] = Z.of_nat k ∧
    0 ≤ rgb_to_pico8_color [r; g; b] ≤ 15 ∧
    PICO8_PALETTE !! k = Some [pr; pg; pb] ∧
    (∀ j qr qg qb, PICO8_PALETTE !! j = Some [qr; qg; qb] →
       (r - pr) ^ 2 + (g - pg) ^ 2 + (b - pb) ^ 2
       ≤ (r - qr) ^ 2 + (g - qg) ^ 2 + (b - qb) ^ 2) ∧
    (∀ j qr qg qb, (j < k)%nat → PICO8_PALETTE !! j = Some [qr; qg; qb] →
       (r - pr) ^ 2 + (g - pg) ^ 2 + (b - pb) ^ 2
       < (r - qr) ^ 2 + (g - qg) ^ 2 + (b - qb) ^ 2).
Proof.
  destruct (scan_first_min [r; g; b] PICO8_PALETTE)
    as (k & pc & Hres & Hk & Hmin & Hfirst); [done|].
  assert (Hlen : (k < 16)%nat) by (apply lookup_lt_Some in Hk; exact Hk).
  assert (∃ pr pg pb, pc = [pr; pg; pb]) as (pr & pg & pb & ->).
  { do 16 (destruct k as [|k]; [inversion Hk; eauto|]). lia. }
  exists k, pr, pg, pb.
  change (find_closest_pico8_color [r; g; b]) with (rgb_to_pico8_color [r; g; b]).
  unfold rgb_to_pico8_color. rewrite Hres.
  repeat split; [lia|lia|done| |].
  - intros j qr qg qb Hj. rewrite <- !distance_triple. eauto.
  - intros j qr qg qb Hlt Hj. rewrite <- !distance_triple. eauto.
Qed.

(** C8, amended: [find_closest_pico8_color] (in [png_to_pico8.py] and
    [png_extract_all_sprites.py]) returns 0 for every sample with alpha 0,
    whatever its RGB values; [rgb_to_pico8_color] (in [sprite_extractor.py])
    has no alpha case and quantizes a four-component sample by its RGB
    values alone. *)
Theorem alpha_zero_collapses (r g b a : Z) :
  find_closest_pico8_color [r; g; b; 0] = 0 ∧
  rgb_to_pico8_color [r; g; b; a] = rgb_to_pico8_color [r; g; b].
Proof.
  split; [done|].
  unfold rgb_to_pico8_color.
  rewrite <- (scan_take3 [r; g; b; a]); [done|].
  unfold enumerate. simpl. repeat constructor.
Qed.

End PaletteFacts.
(** ** Loops and two-dimensional updates *)

Module GridFacts.
Import Vocabulary.

Lemma for_in_app {A St} (l1 l2 : list A) (body : A → St → option St) s :
  for_in (l1 ++ l2) body s = for_in l1 body s ≫= for_in l2 body.
Proof.
  revert s. induction l1 as [|a l1 IH]; intros s; simpl; [done|].
  destruct (body a s) as [s'|]; simpl; [apply IH|done].
Qed.

Lemma range_S n : range (S n) = range n ++ [n].
Proof. unfold range. by rewrite seq_S. Qed.

Lemma lookup_range n i : i < n → range n !! i = Some i.
Proof. intros. unfold range. by rewrite lookup_seq_lt. Qed.

Lemma elem_of_range n i : i ∈ range n ↔ i < n.
Proof. unfold range. rewrite elem_of_seq. lia. Qed.

Lemma length_range n : length (range n) = n.
Proof. apply length_seq. Qed.

(** The invariant rule for [for k in range(n)]. *)
Lemma for_range_inv {St} (I : nat → St → Prop) n (body : nat → St → option St) s :
  I 0 s →
  (∀ k s, k < n → I k s → ∃ s', body k s = Some s' ∧ I (S k) s') →
  ∃ s', for_in (range n) body s = Some s' ∧ I n s'.
Proof.
  intros H0 Hstep. induction n as [|n IH].
  - exists s. by split.
  - destruct IH as (s1 & Hrun & HI); [intros; apply Hstep; [lia|done]|].
    destruct (Hstep n s1) as (s2 & Hbody & HI2); [lia|done|].
    exists s2. split; [|done].
    rewrite range_S, for_in_app, Hrun. simpl. by rewrite Hbody.
Qed.

Section Grid.
Context {A : Type}.
Implicit Types data : list (list A).

Lemma rect_lookup R C data r row :
  rect R C data → data !! r = Some row → length row = C.
Proof. intros [_ Hall] Hr. by eapply (Forall_lookup_1 _ _ _ _ Hall Hr). Qed.

Lemma get2_is_Some R C data r c :
  rect R C data → r < R → c < C → is_Some (get2 data r c).
Proof.
  intros Hrect Hr Hc. unfold get2.
  destruct (lookup_lt_is_Some_2 data r) as [row Hrow]; [destruct Hrect; lia|].
  rewrite Hrow. simpl. apply lookup_lt_is_Some_2.
  by rewrite (rect_lookup _ _ _ _ _ Hrect Hrow).
Qed.

Lemma get2_Some_lt R C data r c v :
  rect R C data → get2 data r c = Some v → r < R ∧ c < C.
Proof.
  intros Hrect. unfold get2. destruct (data !! r) as [row|] eqn:Hrow; [|done].
  simpl. intros Hc. split.
  - apply lookup_lt_Some in Hrow. destruct Hrect. lia.
  - apply lookup_lt_Some in Hc. by rewrite (rect_lookup _ _ _ _ _ Hrect Hrow) in Hc.
Qed.

Lemma get2_replicate R C (v : A) r c :
  r < R → c < C → get2 (replicate R (replicate C v)) r c = Some v.
Proof.
  intros Hr Hc. unfold get2. rewrite lookup_replicate_2 by done. simpl.
  by rewrite lookup_replicate_2.
Qed.

Lemma rect_replicate R C (v : A) : rect R C (replicate R (replicate C v)).
Proof.
  split; [apply length_replicate|].
  apply Forall_forall. intros row Hrow.
  apply elem_of_replicate in Hrow as [-> _]. apply length_replicate.
Qed.

Lemma updated_weaken R C (P P' : nat → nat → Prop) f f' data data' :
  (∀ r c, P r c ↔ P' r c) →
  (∀ r c, P r c → f r c = f' r c) →
  updated R C P f data data' → updated R C P' f' data data'.
Proof.
  intros HP Hf [Hrect Hall]. split; [done|]. intros r c.
  destruct (Hall r c) as [H1 H2]. split.
  - intros HP'. apply HP in HP'. rewrite <- Hf by done. auto.
  - intros HnP'. apply H2. by rewrite HP.
Qed.

(** [data[r][c] = v] inside the rectangle. *)
Lemma set2_updated R C data r c v :
  rect R C data → r < R → c < C →
  ∃ data', set2 data r c v = Some data' ∧
    updated R C (λ r' c', r' = r ∧ c' = c) (λ _ _, Some v) data data'.
Proof.
  intros Hrect Hr Hc. unfold set2.
  destruct (lookup_lt_is_Some_2 data r) as [row Hrow]; [destruct Hrect; lia|].
  rewrite Hrow. simpl.
  pose proof (rect_lookup _ _ _ _ _ Hrect Hrow) as Hlen.
  rewrite decide_True by lia.
  eexists. split; [done|]. split.
  - destruct Hrect as [HR Hall]. split; [by rewrite length_insert|].
    apply Forall_insert; [done|]. by rewrite length_insert.
  - intros r' c'. split.
    + intros [-> ->]. unfold get2.
      rewrite list_lookup_insert_eq by (apply lookup_lt_Some in Hrow; done).
      simpl. apply list_lookup_insert_eq. lia.
    + intros Hne. unfold get2.
      destruct (decide (r' = r)) as [->|Hr'].
      * rewrite list_lookup_insert_eq by (apply lookup_lt_Some in Hrow; done).
        rewrite Hrow. simpl. apply list_lookup_insert_ne. naive_solver.
      * by rewrite list_lookup_insert_ne.
Qed.

(** A loop whose [k]-th iteration overwrites the positions [Q k]. *)
Lemma for_range_updated R C (Q : nat → nat → nat → Prop)
    `{∀ k r c, Decision (Q k r c)} f n body data :
  rect R C data →
  (∀ k data1, k < n → rect R C data1 →
     ∃ data2, body k data1 = Some data2 ∧ updated R C (Q k) f data1 data2) →
  ∃ data', for_in (range n) body data = Some data' ∧
    updated R C (λ r c, ∃ k, k < n ∧ Q k r c) f data data'.
Proof.
  intros Hrect Hstep.
  apply (for_range_inv
           (λ m d, updated R C (λ r c, ∃ k, k < m ∧ Q k r c) f data d)).
  - split; [done|]. intros r c. split; [|done]. intros (k & Hk & _). lia.
  - intros k d Hk [Hrd Hd].
    destruct (Hstep k d Hk Hrd) as (d2 & Hbody & Hrd2 & Hd2).
    exists d2. split; [done|]. split; [done|]. intros r c.
    destruct (Hd r c) as [Hin Hout]. destruct (Hd2 r c) as [Hin2 Hout2].
    destruct (decide (Q k r c)) as [HQ|HnQ].
    + split; [auto|]. intros Hno. exfalso. apply Hno. exists k. split; [lia|done].
    + split.
      * intros (k' & Hk' & HQ'). rewrite Hout2 by done. apply Hin.
        exists k'. split; [|done].
        destruct (decide (k' = k)) as [->|]; [done|lia].
      * intros Hno. rewrite Hout2 by done. apply Hout.
        intros (k' & Hk' & HQ'). apply Hno. exists k'. split; [lia|done].
Qed.

End Grid.

End GridFacts.
(** ** The packer *)

Module PackerFacts.
Import Extractor Packer Vocabulary GridFacts.

Lemma rect_readable S data x0 y0 n :
  rect S S data → x0 + n ≤ S → y0 + n ≤ S → readable data x0 y0 n.
Proof.
  intros Hrect Hx Hy y x Hlty Hltx.
  eapply get2_is_Some; [done|lia..].
Qed.

(** The 8x8 copy overwrites exactly its destination block. *)
Lemma copy_block_updated R C data sx0 sy0 dx0 dy0 sheet :
  rect R C sheet → dy0 + 8 ≤ R → dx0 + 8 ≤ C →
  readable data sx0 sy0 8 →
  ∃ sheet', copy_block data sx0 sy0 dx0 dy0 sheet = Some sheet' ∧
    updated R C (λ r c, dy0 ≤ r < dy0 + 8 ∧ dx0 ≤ c < dx0 + 8)
      (λ r c, get2 data (sy0 + (r - dy0)) (sx0 + (c - dx0))) sheet sheet'.
Proof.
  intros Hrect Hy Hx Hread. unfold copy_block.
  set (f := λ r c, get2 data (sy0 + (r - dy0)) (sx0 + (c - dx0))).
  destruct (for_range_updated R C
              (λ y r c, r = dy0 + y ∧ dx0 ≤ c < dx0 + 8) f 8
              (λ y sheet, for_in (range 8) (λ x sheet,
                 v ← get2 data (sy0 + y) (sx0 + x);
                 set2 sheet (dy0 + y) (dx0 + x) v) sheet) sheet Hrect)
    as (sheet' & Hrun & Hupd).
  - intros y sheet1 Hylt Hrect1.
    destruct (for_range_updated R C
                (λ x r c, r = dy0 + y ∧ c = dx0 + x) f 8
                (λ x sheet, v ← get2 data (sy0 + y) (sx0 + x);
                            set2 sheet (dy0 + y) (dx0 + x) v) sheet1 Hrect1)
      as (sheet2 & Hrun2 & Hupd2).
    + intros x sheet3 Hxlt Hrect3.
      destruct (Hread y x Hylt Hxlt) as [v Hv]. rewrite Hv. simpl.
      destruct (set2_updated R C sheet3 (dy0 + y) (dx0 + x) v Hrect3)
        as (sheet4 & Hset & Hupd4); [lia..|].
      exists sheet4. split; [done|].
      eapply updated_weaken; [| |exact Hupd4]; [done|].
      intros r c [-> ->]. unfold f.
      replace (dy0 + y - dy0) with y by lia.
      replace (dx0 + x - dx0) with x by lia. done.
    + exists sheet2. split; [done|].
      eapply updated_weaken; [| |exact Hupd2]; [|done].
      intros r c. split.
      * intros (x & Hxlt & -> & ->). lia.
      * intros [-> Hc]. exists (c - dx0). lia.
  - exists sheet'. split; [done|].
    eapply updated_weaken; [| |exact Hupd]; [|done].
    intros r c. split.
    + intros (y & Hylt & -> & Hc). lia.
    + intros [Hr Hc]. exists (r - dy0). lia.
Qed.

(** The copy of an [n] by [n] grid of chunks overwrites exactly the block
    of [8n] by [8n] pixels at [(sheet_x, sheet_y)] with the sprite's data. *)
Lemma copy_chunks_updated R C n data sheet_x sheet_y sheet :
  rect R C sheet → sheet_y + 8 * n ≤ R → sheet_x + 8 * n ≤ C →
  readable data 0 0 (8 * n) →
  ∃ sheet', copy_chunks n data sheet_x sheet_y sheet = Some sheet' ∧
    updated R C
      (λ r c, sheet_y ≤ r < sheet_y + 8 * n ∧ sheet_x ≤ c < sheet_x + 8 * n)
      (λ r c, get2 data (r - sheet_y) (c - sheet_x)) sheet sheet'.
Proof.
  intros Hrect Hy Hx Hread. unfold copy_chunks.
  set (f := λ r c, get2 data (r - sheet_y) (c - sheet_x)).
  destruct (for_range_updated R C
              (λ cy r c, sheet_y + cy * 8 ≤ r < sheet_y + cy * 8 + 8 ∧
                         sheet_x ≤ c < sheet_x + 8 * n) f n
              (λ chunk_y sheet, for_in (range n) (λ chunk_x sheet,
                 copy_block data (chunk_x * 8) (chunk_y * 8)
                   (sheet_x + chunk_x * 8) (sheet_y + chunk_y * 8) sheet) sheet)
              sheet Hrect)
    as (sheet' & Hrun & Hupd).
  - intros cy sheet1 Hcy Hrect1.
    destruct (for_range_updated R C
                (λ cx r c, sheet_y + cy * 8 ≤ r < sheet_y + cy * 8 + 8 ∧
                           sheet_x + cx * 8 ≤ c < sheet_x + cx * 8 + 8) f n
                (λ chunk_x sheet,
                   copy_block data (chunk_x * 8) (cy * 8)
                     (sheet_x + chunk_x * 8) (sheet_y + cy * 8) sheet)
                sheet1 Hrect1)
      as (sheet2 & Hrun2 & Hupd2).
    + intros cx sheet3 Hcx Hrect3.
      destruct (copy_block_updated R C data (cx * 8) (cy * 8)
                  (sheet_x + cx * 8) (sheet_y + cy * 8) sheet3 Hrect3)
        as (sheet4 & Hcopy & Hupd4); [lia|lia| |].
      { intros y x Hylt Hxlt.
        specialize (Hread (cy * 8 + y) (cx * 8 + x)). simpl in Hread.
        apply Hread; lia. }
      exists sheet4. split; [done|].
      eapply updated_weaken; [| |exact Hupd4]; [done|].
      intros r c [Hr Hc]. unfold f. f_equal; lia.
    + exists sheet2. split; [done|].
      eapply updated_weaken; [| |exact Hupd2]; [|done].
      intros r c. split.
      * intros (cx & Hcx & Hr & Hc). split; [done|]. nia.
      * intros [Hr Hc]. exists ((c - sheet_x) / 8). lia.
  - exists sheet'. split; [done|].
    eapply updated_weaken; [| |exact Hupd]; [|done].
    intros r c. split.
    + intros (cy & Hcy & Hr & Hc). split; [nia|done].
    + intros [Hr Hc]. exists ((r - sheet_y) / 8). lia.
Qed.


(** Unfold the grid arithmetic down to numerals. *)
Ltac grid :=
  unfold fits, advance, skip_row, in_block, pl_cell_x, pl_cell_y in *;
  change grid_size with 16 in *.

Lemma skip_row_16 idx :
  idx mod grid_size + 2 ≤ grid_size → skip_row (idx + 2) = advance 2 idx.
Proof.
  grid. intros. repeat case_decide; lia.
Qed.

Lemma skip_row_32 idx :
  idx mod grid_size + 4 ≤ grid_size →
  skip_row (skip_row (skip_row (idx + 4))) = advance 4 idx.
Proof.
  grid. intros. repeat case_decide; lia.
Qed.

(** What an iteration that returns has done to the cursor and the log. *)
Lemma place_sprite_outcome pos sprite st st' :
  sprite_index st < grid_size * grid_size →
  place_sprite pos sprite st = Some st' →
  step_outcome pos sprite st st'.
Proof.
  intros Hidx. unfold place_sprite, step_outcome.
  change (grid_size * grid_size) with 256 in Hidx.
  destruct (decide (sp_size sprite = 8)) as [H8|_].
  { destruct (copy_block _ _ _ _ _ _) as [sheet|]; simpl; [|done].
    intros [= <-]. right. exists 1. simpl.
    split; [auto|]. split; [lia|]. split; [grid; lia|]. split; [|done].
    grid. case_decide; lia. }
  destruct (decide (sp_size sprite = 16)) as [H16|_].
  { case_decide as Hfit; [intros [= <-]; by left|].
    destruct (copy_chunks _ _ _ _ _) as [sheet|]; simpl; [|done].
    intros [= <-]. right. exists 2. simpl.
    split; [auto|]. split; [lia|]. split; [grid; lia|]. split; [|done].
    apply skip_row_16. grid. lia. }
  destruct (decide (sp_size sprite = 32)) as [H32|_].
  { case_decide as Hfit; [intros [= <-]; by left|].
    destruct (copy_chunks _ _ _ _ _) as [sheet|]; simpl; [|done].
    intros [= <-]. right. exists 4. simpl.
    split; [auto|]. split; [lia|]. split; [grid; lia|]. split; [|done].
    apply skip_row_32. grid. lia. }
  intros [= <-]. by left.
Qed.

(** An iteration on a well-formed sprite returns. A sprite of footprint
    [F] in 1, 2, 4 that fits is placed: the cursor advances, the log grows
    and the sheet changes exactly on the block of the sprite. Any other
    sprite is dropped and nothing changes. *)
Lemma place_sprite_total pos sprite st :
  rect 128 128 (sprite_sheet st) →
  sprite_index st < grid_size * grid_size →
  wf_sprite sprite →
  ∃ st', place_sprite pos sprite st = Some st' ∧
    rect 128 128 (sprite_sheet st') ∧
    ((st' = st ∧
      ∀ F, F = 1 ∨ F = 2 ∨ F = 4 → sp_size sprite = 8 * F →
           ¬ fits F (sprite_index st))
     ∨ ∃ F, (F = 1 ∨ F = 2 ∨ F = 4) ∧ sp_size sprite = 8 * F ∧
       fits F (sprite_index st) ∧
       sprite_index st' = advance F (sprite_index st) ∧
       placed st' = placed st ++
         [ {| pl_pos := pos; pl_cursor := sprite_index st; pl_footprint := F |} ] ∧
       updated 128 128 (in_block F (sprite_index st))
         (λ r c, get2 (sp_data sprite)
                   (r - sprite_index st / grid_size * 8)
                   (c - sprite_index st mod grid_size * 8))
         (sprite_sheet st) (sprite_sheet st')).
Proof.
  intros Hrect Hidx Hwf. unfold place_sprite, wf_sprite in *.
  change (grid_size * grid_size) with 256 in Hidx.
  destruct (decide (sp_size sprite = 8)) as [H8|Hn8].
  { rewrite H8 in Hwf.
    destruct (copy_block_updated 128 128 (sp_data sprite) 0 0
                (sprite_index st mod grid_size * 8)
                (sprite_index st / grid_size * 8)
                (sprite_sheet st) Hrect) as (sheet & -> & Hupd);
      [grid; lia|grid; lia| |].
    { eapply rect_readable; [done|lia..]. }
    cbn [mbind option_bind]. eexists. split; [done|]. split; [apply Hupd|].
    right. exists 1. split; [auto|]. split; [done|].
    split; [grid; lia|]. split; [cbn [sprite_index]; grid; case_decide; lia|].
    split; [done|]. cbn [sprite_sheet].
    eapply updated_weaken; [| |exact Hupd]; [|done].
    intros r c. grid. lia. }
  destruct (decide (sp_size sprite = 16)) as [H16|Hn16].
  { case_decide as Hfit.
    { eexists. split; [done|]. split; [done|]. left. split; [done|].
      intros F HF HsF. grid. lia. }
    rewrite H16 in Hwf.
    destruct (copy_chunks_updated 128 128 2 (sp_data sprite)
                (sprite_index st mod grid_size * 8)
                (sprite_index st / grid_size * 8)
                (sprite_sheet st) Hrect) as (sheet & -> & Hupd);
      [grid; lia|grid; lia| |].
    { eapply rect_readable; [done|lia..]. }
    cbn [mbind option_bind]. eexists. split; [done|]. split; [apply Hupd|].
    right. exists 2. split; [auto|]. split; [done|].
    split; [grid; lia|]. split; [cbn [sprite_index]; apply skip_row_16; grid; lia|].
    split; [done|]. exact Hupd. }
  destruct (decide (sp_size sprite = 32)) as [H32|Hn32].
  { case_decide as Hfit.
    { eexists. split; [done|]. split; [done|]. left. split; [done|].
      intros F HF HsF. grid. lia. }
    rewrite H32 in Hwf.
    destruct (copy_chunks_updated 128 128 4 (sp_data sprite)
                (sprite_index st mod grid_size * 8)
                (sprite_index st / grid_size * 8)
                (sprite_sheet st) Hrect) as (sheet & -> & Hupd);
      [grid; lia|grid; lia| |].
    { eapply rect_readable; [done|lia..]. }
    cbn [mbind option_bind]. eexists. split; [done|]. split; [apply Hupd|].
    right. exists 4. split; [auto|]. split; [done|].
    split; [grid; lia|]. split; [cbn [sprite_index]; apply skip_row_32; grid; lia|].
    split; [done|]. exact Hupd. }
  eexists. split; [done|]. split; [done|]. left. split; [done|].
  intros F HF HsF. lia.
Qed.

(** The loop returns on well-formed sprites. *)
Lemma pack_loop_total sprites : ∀ pos st,
  Forall wf_sprite sprites → rect 128 128 (sprite_sheet st) →
  ∃ st', pack_loop pos sprites st = Some st' ∧ rect 128 128 (sprite_sheet st').
Proof.
  induction sprites as [|sp rest IH]; intros pos st Hwf Hrect; cbn [pack_loop].
  - eauto.
  - case_decide as Hfull; [eauto|].
    apply Forall_cons in Hwf as [Hsp Hrest].
    destruct (place_sprite_total pos sp st Hrect) as (st1 & -> & Hrect1 & _);
      [lia|done|].
    cbn [mbind option_bind]. by apply IH.
Qed.

(** The invariant rule of the loop. *)
Lemma pack_loop_inv (I : PackState → Prop) (G : Sprite → Prop) sprites :
  (∀ pos sp st st', G sp → sprite_index st < grid_size * grid_size → I st →
     place_sprite pos sp st = Some st' → I st') →
  ∀ pos st st', Forall G sprites → I st →
    pack_loop pos sprites st = Some st' → I st'.
Proof.
  intros Hstep.
  induction sprites as [|sp rest IH]; intros pos st st' HG HI; cbn [pack_loop].
  - by intros [= <-].
  - case_decide as Hfull; [by intros [= <-]|].
    apply Forall_cons in HG as [Hsp Hrest].
    destruct (place_sprite pos sp st) as [st1|] eqn:Hplace;
      cbn [mbind option_bind]; [|done].
    apply IH; [done|]. eapply Hstep; [done| |done..]. lia.
Qed.

Lemma rect_blank_sheet : rect 128 128 blank_sheet.
Proof. apply rect_replicate. Qed.


Lemma elem_of_cells p x y :
  (x, y) ∈ cells p ↔
  pl_cell_x p ≤ x < pl_cell_x p + pl_footprint p ∧
  pl_cell_y p ≤ y < pl_cell_y p + pl_footprint p.
Proof.
  unfold cells. rewrite list_elem_of_bind. split.
  - intros (dy & Hin & Hdy). apply list_elem_of_bind in Hin as (dx & Hin & Hdx).
    apply list_elem_of_singleton in Hin as [= -> ->].
    apply elem_of_range in Hdy, Hdx. lia.
  - intros [Hx Hy]. exists (y - pl_cell_y p). rewrite elem_of_range.
    split; [|lia]. apply list_elem_of_bind. exists (x - pl_cell_x p).
    rewrite elem_of_range. split; [|lia].
    apply list_elem_of_singleton. f_equal; lia.
Qed.

(** Two aligned blocks of one footprint at different cursors share no
    cell. *)
Lemma aligned_disjoint F p q c :
  (F = 1 ∨ F = 2 ∨ F = 4) →
  pl_footprint p = F → pl_footprint q = F →
  aligned F (pl_cursor p) → aligned F (pl_cursor q) →
  pl_cursor p ≠ pl_cursor q →
  c ∈ cells p → c ∉ cells q.
Proof.
  intros HF Hp Hq [Hpx Hpy] [Hqx Hqy] Hne. destruct c as [x y].
  rewrite !elem_of_cells, Hp, Hq. grid.
  destruct HF as [->|[->| ->]]; lia.
Qed.

Lemma aligned_advance F idx :
  (F = 1 ∨ F = 2 ∨ F = 4) → aligned F idx → fits F idx →
  aligned F (advance F idx) ∧ idx < advance F idx.
Proof.
  unfold aligned. grid. intros HF [Hx Hy] [Hfx Hfy].
  destruct HF as [->|[->| ->]]; case_decide; lia.
Qed.

Lemma uniform_inv_step s pos sp st st' :
  sp_size sp = s → sprite_index st < grid_size * grid_size →
  uniform_inv (s / 8) st → place_sprite pos sp st = Some st' →
  uniform_inv (s / 8) st'.
Proof.
  intros Hs Hidx (Hal & Hlog & Hno) Hplace.
  destruct (place_sprite_outcome _ _ _ _ Hidx Hplace)
    as [->|(F & HF & Hsize & Hfit & Hnext & Hplaced)]; [done|].
  assert (HF8 : s / 8 = F) by lia. rewrite HF8 in *. clear HF8.
  destruct (aligned_advance F _ HF Hal Hfit) as [Hal' Hlt].
  unfold uniform_inv. rewrite Hnext, Hplaced. split; [done|]. split.
  - intros p [Hp|Hp]%elem_of_app.
    + destruct (Hlog p Hp) as (? & ? & ?). split; [done|]. split; [done|lia].
    + apply list_elem_of_singleton in Hp as ->. simpl. done.
  - intros i j p q c Hij Hi Hj.
    apply lookup_snoc_Some in Hi as [[Hilt Hi]|[Hieq <-]];
      apply lookup_snoc_Some in Hj as [[Hjlt Hj]|[Hjeq <-]].
    + by eapply Hno.
    + destruct (Hlog p) as (? & ? & ?); [by eapply list_elem_of_lookup_2|].
      apply (aligned_disjoint F); simpl; [done..|lia].
    + destruct (Hlog q) as (? & ? & ?); [by eapply list_elem_of_lookup_2|].
      apply (aligned_disjoint F); simpl; [done..|lia].
    + lia.
Qed.

Lemma uniform_inv_initial F : uniform_inv F initial.
Proof.
  unfold uniform_inv, aligned, initial. simpl. split.
  - grid. split; [change (0 mod 16) with 0|change (0 / 16) with 0];
      apply Nat.Div0.mod_0_l.
  - split; [intros p Hp; by apply elem_of_nil in Hp|].
    intros i j p q c _ Hi. by rewrite lookup_nil in Hi.
Qed.

(** A run on sprites of one size leaves no two placements on a common
    cell, whether or not the data of the sprites are well formed. *)
Lemma uniform_no_overlap s sprites st :
  Forall (λ sp, sp_size sp = s) sprites →
  pack_run sprites = Some st → no_overlap (placed st).
Proof.
  intros Hall Hrun.
  apply (pack_loop_inv (uniform_inv (s / 8)) (λ sp, sp_size sp = s) sprites)
    with (pos := 0) (st := initial) (st' := st) in Hall;
    [by destruct Hall as (_ & _ & ?)| |apply uniform_inv_initial|done].
  intros pos sp st0 st1 Hs Hidx Hinv Hplace. by eapply uniform_inv_step.
Qed.

(** Every placement of a run fits the grid. *)
Lemma placed_fits sprites st :
  pack_run sprites = Some st →
  ∀ p, p ∈ placed st → fits (pl_footprint p) (pl_cursor p).
Proof.
  intros Hrun.
  apply (pack_loop_inv
           (λ st, ∀ p, p ∈ placed st → fits (pl_footprint p) (pl_cursor p))
           (λ _, True) sprites) with (pos := 0) (st := initial) (st' := st);
    [|by apply Forall_true|by intros p Hp%elem_of_nil|done].
  intros pos sp st0 st1 _ Hidx Hinv Hplace.
  destruct (place_sprite_outcome _ _ _ _ Hidx Hplace)
    as [->|(F & HF & Hsize & Hfit & Hnext & Hplaced)]; [done|].
  rewrite Hplaced. intros p [Hp|Hp]%elem_of_app; [auto|].
  by apply list_elem_of_singleton in Hp as ->.
Qed.

End PackerFacts.
(** ** Packing: capacity, containment, overlap, cursor *)

Module PackerTheorems.
Import Img Extractor Packer Split Vocabulary GridFacts PackerFacts Examples.

Lemma pack_loop_full pos sprites st :
  grid_size * grid_size ≤ sprite_index st → pack_loop pos sprites st = Some st.
Proof. intros. destruct sprites; cbn [pack_loop]; [done|]. by rewrite decide_True. Qed.

Lemma pack_loop_app l1 l2 : ∀ pos st,
  pack_loop pos (l1 ++ l2) st =
  pack_loop pos l1 st ≫= pack_loop (pos + length l1) l2.
Proof.
  induction l1 as [|sp l1 IH]; intros pos st.
  - cbn. by rewrite Nat.add_0_r.
  - cbn [app pack_loop length]. case_decide as Hfull.
    + cbn. by rewrite pack_loop_full.
    + destruct (place_sprite pos sp st) as [st1|]; cbn [mbind option_bind]; [|done].
      rewrite IH. by replace (pos + S (length l1)) with (S pos + length l1) by lia.
Qed.

Lemma advance_1 idx : advance 1 idx = idx + 1.
Proof. grid. case_decide; lia. Qed.

Lemma in_block_cells F idx r c pos :
  in_block F idx r c ↔
  (c / 8, r / 8) ∈ cells {| pl_pos := pos; pl_cursor := idx; pl_footprint := F |}.
Proof. rewrite elem_of_cells. grid. cbn [pl_cursor pl_footprint]. lia. Qed.

(** A run on 8x8 sprites from cursor [pos]: one sprite per cell, in input
    order, as long as the cursor is below 256. *)
Lemma pack8_loop sprites : ∀ pos st,
  Forall (λ sp, sp_size sp = 8 ∧ wf_sprite sp) sprites →
  rect 128 128 (sprite_sheet st) → sprite_index st = pos →
  ∃ st', pack_loop pos sprites st = Some st' ∧
    rect 128 128 (sprite_sheet st') ∧
    sprite_index st' = pos + length (take (256 - pos) sprites) ∧
    placed st' = placed st ++
      imap (λ i _, {| pl_pos := pos + i; pl_cursor := pos + i; pl_footprint := 1 |})
           (take (256 - pos) sprites) ∧
    ∀ k y x, k < 256 → y < 8 → x < 8 →
      cell_pixel (sprite_sheet st') k y x =
      match (if decide (pos ≤ k) then sprites !! (k - pos) else None) with
      | Some sp => get2 (sp_data sp) y x
      | None => cell_pixel (sprite_sheet st) k y x
      end.
Proof.
  induction sprites as [|sp rest IH]; intros pos st Hall Hrect Hpos.
  - exists st. rewrite take_nil. cbn [pack_loop length imap].
    rewrite Nat.add_0_r, app_nil_r. do 4 (split; [done|]).
    intros k y x _ _ _. rewrite lookup_nil. by case_decide.
  - cbn [pack_loop]. case_decide as Hfull.
    + change (grid_size * grid_size) with 256 in Hfull.
      exists st. replace (256 - pos) with 0 by lia. cbn [take length imap].
      rewrite Nat.add_0_r, app_nil_r. do 4 (split; [done|]).
      intros k y x Hk _ _. rewrite decide_False by lia. done.
    + change (grid_size * grid_size) with 256 in Hfull.
      apply Forall_cons in Hall as [[Hsize Hwf] Hrest].
      destruct (place_sprite_total pos sp st Hrect) as (st1 & -> & Hrect1 & Hout);
        [change (grid_size * grid_size) with 256; lia|done|].
      cbn [mbind option_bind].
      destruct Hout as [[_ Hno]|(F & HF & HsF & Hfit & Hnext & Hlog & Hupd)].
      { exfalso. apply (Hno 1); [auto|lia|]. grid. lia. }
      assert (F = 1) as -> by lia. rewrite advance_1 in Hnext.
      destruct (IH (S pos) st1 Hrest Hrect1) as (st' & Hrun & Hrect' & Hidx' & Hlog' & Hpix);
        [lia|].
      exists st'. split; [done|]. split; [done|].
      replace (256 - pos) with (S (256 - S pos)) by lia. cbn [take length imap].
      split; [lia|]. split.
      * rewrite Hlog', Hlog, Hpos, <- app_assoc. cbn [app]. f_equal. f_equal.
        { by rewrite Nat.add_0_r. }
        apply imap_ext. intros i a _. cbn. f_equal; lia.
      * intros k y x Hk Hy Hx. rewrite (Hpix k y x Hk Hy Hx).
        destruct Hupd as [_ Hupd].
        destruct (decide (S pos ≤ k)) as [Hgt|Hle].
        -- rewrite decide_True by lia.
           replace (k - pos) with (S (k - S pos)) by lia. cbn [lookup list_lookup].
           destruct (rest !! (k - S pos)) as [sp'|] eqn:Hk'; [done|].
           unfold cell_pixel. apply Hupd. grid. lia.
        -- destruct (decide (pos ≤ k)) as [Hge|Hlt].
           ++ assert (k = pos) as -> by lia. rewrite Nat.sub_diag. cbn.
              unfold cell_pixel.
              destruct (Hupd (pos / grid_size * 8 + y) (pos mod grid_size * 8 + x))
                as [Hin _].
              rewrite Hin by (grid; lia). f_equal; grid; lia.
           ++ unfold cell_pixel. apply Hupd. grid. lia.
Qed.

(** C4: a sequence of well-formed 8x8 sprites is packed one sprite per
    cell in input order: the sprite at position [k < 256] is at cursor [k]
    and its pixels fill cell [k]; cells beyond the input stay 0; the run
    on the whole sequence ends in the very state of the run on its first
    256 sprites, so a sprite from position 256 on is dropped and alters
    nothing. *)
Theorem pack_8x8_capacity (sprites : list Sprite) :
  Forall (λ sp, sp_size sp = 8 ∧ wf_sprite sp) sprites →
  ∃ st, pack_run sprites = Some st ∧
    pack_run (take 256 sprites) = Some st ∧
    length (placed st) = length sprites `min` 256 ∧
    placed st =
      imap (λ i _, {| pl_pos := i; pl_cursor := i; pl_footprint := 1 |})
           (take 256 sprites) ∧
    (∀ k sp, k < 256 → sprites !! k = Some sp →
       ∀ y x, y < 8 → x < 8 →
         cell_pixel (sprite_sheet st) k y x = get2 (sp_data sp) y x) ∧
    (∀ k, length sprites ≤ k < 256 →
       ∀ y x, y < 8 → x < 8 → cell_pixel (sprite_sheet st) k y x = Some 0%Z).
Proof.
  intros Hall.
  destruct (pack8_loop (take 256 sprites) 0 initial)
    as (st & Hrun & Hrect & Hidx & Hlog & Hpix);
    [by apply Forall_take|apply rect_blank_sheet|done|].
  rewrite Nat.sub_0_r, take_take, Nat.min_id in Hidx, Hlog.
  cbn in Hidx, Hlog.
  exists st. split; [|split; [done|]].
  { unfold pack_run in *. rewrite <- (take_drop 256 sprites), pack_loop_app, Hrun.
    cbn [mbind option_bind].
    destruct (decide (length sprites ≤ 256)) as [Hle|Hgt].
    - by rewrite drop_ge.
    - apply pack_loop_full. rewrite Hidx, length_take.
      change (grid_size * grid_size) with 256. lia. }
  split; [|split; [exact Hlog|split]].
  - rewrite Hlog, length_imap, length_take. lia.
  - intros k sp Hk Hsp y x Hy Hx. rewrite (Hpix k y x Hk Hy Hx).
    rewrite decide_True by lia. rewrite Nat.sub_0_r, lookup_take_lt by lia.
    by rewrite Hsp.
  - intros k Hk y x Hy Hx. rewrite (Hpix k y x) by lia.
    rewrite decide_True by lia. rewrite Nat.sub_0_r, lookup_take_lt by lia.
    rewrite lookup_ge_None_2 by lia.
    unfold cell_pixel, initial, blank_sheet. cbn [sprite_sheet].
    apply get2_replicate; grid; unfold sheet_size; lia.
Qed.


Lemma pack_8x8_capacity_witness :
  ∃ st, pack_run sprites_257 = Some st ∧
    pack_run (take 256 sprites_257) = Some st ∧
    length (placed st) = length sprites_257 `min` 256 ∧
    placed st =
      imap (λ i _, {| pl_pos := i; pl_cursor := i; pl_footprint := 1 |})
           (take 256 sprites_257) ∧
    (∀ k sp, k < 256 → sprites_257 !! k = Some sp →
       ∀ y x, y < 8 → x < 8 →
         cell_pixel (sprite_sheet st) k y x = get2 (sp_data sp) y x) ∧
    (∀ k, length sprites_257 ≤ k < 256 →
       ∀ y x, y < 8 → x < 8 → cell_pixel (sprite_sheet st) k y x = Some 0%Z).
Proof.
  apply (pack_8x8_capacity sprites_257).
  apply (bool_decide_unpack _). vm_compute. exact I.
Defined.

(** The log is a faithful record of the writes: a pixel of the final sheet
    that lies in no cell of the log still has the initial 0. *)
Lemma unlogged_pixels_blank sprites st :
  Forall wf_sprite sprites → pack_run sprites = Some st →
  ∀ r c, r < 128 → c < 128 →
    (∀ p, p ∈ placed st → (c / 8, r / 8) ∉ cells p) →
    get2 (sprite_sheet st) r c = Some 0%Z.
Proof.
  intros Hwf Hrun.
  pose (I := λ st : PackState,
    rect 128 128 (sprite_sheet st) ∧
    ∀ r c, r < 128 → c < 128 →
      (∀ p, p ∈ placed st → (c / 8, r / 8) ∉ cells p) →
      get2 (sprite_sheet st) r c = Some 0%Z).
  enough (I st) as [_ H] by exact H.
  apply (pack_loop_inv I wf_sprite sprites) with (pos := 0) (st := initial);
    [| done | | done].
  - intros pos sp st0 st1 Hsp Hidx [Hrect Hblank] Hplace.
    destruct (place_sprite_total pos sp st0 Hrect Hidx Hsp)
      as (st2 & Hplace2 & Hrect2 & Hout).
    rewrite Hplace in Hplace2. injection Hplace2 as <-.
    destruct Hout as [[-> _]|(F & HF & HsF & Hfit & Hnext & Hlog & Hupd)];
      [by split|].
    split; [done|]. intros r c Hr Hc Hfree.
    destruct Hupd as [_ Hupd]. destruct (Hupd r c) as [_ Hout].
    rewrite Hout.
    + apply Hblank; [done..|]. intros p Hp. apply Hfree. rewrite Hlog.
      apply elem_of_app. by left.
    + rewrite (in_block_cells _ _ _ _ pos). apply Hfree. rewrite Hlog.
      apply elem_of_app. right. by apply list_elem_of_singleton.
  - split; [apply rect_blank_sheet|]. intros r c Hr Hc _.
    by apply get2_replicate.
Qed.

(** C5: on every sequence of well-formed sprites the packer returns, and
    every sprite it has placed with a footprint [F > 1] lies within the
    grid: [cellX + F <= 16] and [cellY + F <= 16]. *)
Theorem multicell_within_grid (sprites : list Sprite) :
  Forall wf_sprite sprites →
  ∃ st, pack_run sprites = Some st ∧
    ∀ p, p ∈ placed st → 1 < pl_footprint p →
      pl_cell_x p + pl_footprint p ≤ 16 ∧ pl_cell_y p + pl_footprint p ≤ 16.
Proof.
  intros Hwf.
  destruct (pack_loop_total sprites 0 initial Hwf rect_blank_sheet) as (st & Hrun & _).
  exists st. split; [done|]. intros p Hp _.
  apply (placed_fits sprites st Hrun p Hp).
Qed.

Lemma multicell_within_grid_witness :
  ∃ st, pack_run mixed_sizes = Some st ∧
    ∀ p, p ∈ placed st → 1 < pl_footprint p →
      pl_cell_x p + pl_footprint p ≤ 16 ∧ pl_cell_y p + pl_footprint p ≤ 16.
Proof.
  apply (multicell_within_grid mixed_sizes).
  apply (bool_decide_unpack _). vm_compute. exact I.
Defined.

(** C1, as stated, fails in both packers. In the multi-size packer a
    32x32 sprite at cursor 0 and the 16x16 sprite placed at cursor 32
    both write cell (0, 2). In the 16x16 producer the sprites of index 0
    and 8 both write slot 16: in the sheet built from a strip of nine
    sprites the text cell of row 8, column 0, first written with the
    bottom-left quadrant of sprite 0 (colour 1), holds the top-left
    quadrant of sprite 8 (colour 2). *)
Lemma packers_overlap :
  (∃ st, pack_run mixed_sizes = Some st ∧
     placed st !! 0 = Some {| pl_pos := 0; pl_cursor := 0; pl_footprint := 4 |} ∧
     placed st !! 7 = Some {| pl_pos := 7; pl_cursor := 32; pl_footprint := 2 |} ∧
     ¬ no_overlap (placed st)) ∧
  (16 ∈ quadrant_slots 0 ∧ 16 ∈ quadrant_slots 8 ∧
   ∃ sprites sheet1 sheet9,
     extract_all_sprites (Some strip_144x16) 16 = Some sprites ∧
     length sprites = 9 ∧
     gfx_text_sheet (take 1 sprites) = Some sheet1 ∧
     get2 sheet1 8 0 = Some "11111111"%string ∧
     gfx_text_sheet sprites = Some sheet9 ∧
     get2 sheet9 8 0 = Some "22222222"%string).
Proof.
  split.
  - eexists. split; [vm_compute; reflexivity|].
    split; [reflexivity|]. split; [reflexivity|].
    intros Hno.
    apply (Hno 0 7 {| pl_pos := 0; pl_cursor := 0; pl_footprint := 4 |}
                   {| pl_pos := 7; pl_cursor := 32; pl_footprint := 2 |} (0, 2));
      [done|reflexivity|reflexivity| |];
      apply elem_of_cells; vm_compute; lia.
  - split; [|split].
    + unfold quadrant_slots. rewrite !elem_of_cons. lia.
    + unfold quadrant_slots. rewrite !elem_of_cons. lia.
    + eexists _, _, _. split; [vm_compute; reflexivity|].
      split; [reflexivity|]. split; [vm_compute; reflexivity|].
      split; [reflexivity|]. split; [vm_compute; reflexivity|]. reflexivity.
Qed.

(** C1, amended: on every sequence of well-formed sprites that all have the
    same size, the multi-size packer returns and no two sprites it has
    placed write to a common cell of the sheet. The overwriting in the
    16x16 producer shown above is no part of this statement. *)
Theorem uniform_sizes_no_overlap (s : nat) (sprites : list Sprite) :
  Forall (λ sp, sp_size sp = s ∧ wf_sprite sp) sprites →
  ∃ st, pack_run sprites = Some st ∧ no_overlap (placed st).
Proof.
  intros Hall.
  destruct (pack_loop_total sprites 0 initial) as (st & Hrun & _);
    [by eapply Forall_impl; [exact Hall|intros ? [_ ?]]|apply rect_blank_sheet|].
  exists st. split; [done|].
  apply (uniform_no_overlap s sprites st); [|done].
  eapply Forall_impl; [exact Hall|]. by intros ? [? _].
Qed.

Lemma uniform_sizes_no_overlap_witness :
  ∃ st, pack_run three_16x16 = Some st ∧ no_overlap (placed st).
Proof.
  apply (uniform_sizes_no_overlap 16 three_16x16).
  apply (bool_decide_unpack _). vm_compute. exact I.
Defined.

(** C2, as stated, fails: after the 32x32 sprite at cursor 0 the 8x8 sprite
    is placed at cursor 4, which is cell (4, 0) and not cell (0, 4) (cursor
    64); the pixels of cell (4, 0) hold the 8x8 sprite and cell (0, 4) is
    still blank. *)
Lemma big_then_small_same_row :
  ∃ st, pack_run big_then_small = Some st ∧
    placed st = [ {| pl_pos := 0; pl_cursor := 0; pl_footprint := 4 |};
                  {| pl_pos := 1; pl_cursor := 4; pl_footprint := 1 |} ] ∧
    (4 mod grid_size, 4 / grid_size) = (4, 0) ∧
    cell_pixel (sprite_sheet st) 4 0 0 = Some 2%Z ∧
    cell_pixel (sprite_sheet st) 64 0 0 = Some 0%Z.
Proof.
  eexists. split; [vm_compute; reflexivity|]. by vm_compute.
Qed.

(** C2, amended: when the packer places a well-formed sprite of footprint
    [F > 1] at cursor [c], the cursor moves [F] cells to the right; only
    when that is the end of the 16-cell row ([c mod 16 + F = 16]) does the
    cursor move on to the start of the row [F] rows below the sprite's top
    row. *)
Theorem cursor_after_multicell (pos : nat) (sprite : Sprite) (st : PackState)
    (F : nat) :
  F = 2 ∨ F = 4 →
  sp_size sprite = 8 * F →
  wf_sprite sprite →
  rect 128 128 (sprite_sheet st) →
  sprite_index st < 256 →
  fits F (sprite_index st) →
  ∃ st', place_sprite pos sprite st = Some st' ∧
    placed st' = placed st ++
      [ {| pl_pos := pos; pl_cursor := sprite_index st; pl_footprint := F |} ] ∧
    sprite_index st' =
      if decide (sprite_index st mod 16 + F = 16)
      then 16 * (sprite_index st / 16 + F)
      else sprite_index st + F.
Proof.
  intros HF Hsize Hwf Hrect Hidx Hfit.
  destruct (place_sprite_total pos sprite st Hrect Hidx Hwf)
    as (st' & Hplace & _ & Hout).
  exists st'. split; [done|].
  destruct Hout as [[_ Hno]|(F' & HF' & HsF & _ & Hnext & Hlog & _)].
  - exfalso. apply (Hno F); [tauto|done..].
  - assert (F' = F) as -> by lia. split; [done|]. exact Hnext.
Qed.

Lemma cursor_after_multicell_witness :
  ∃ st', place_sprite 0 (solid 32 1 0) initial = Some st' ∧
    placed st' = placed initial ++
      [ {| pl_pos := 0; pl_cursor := sprite_index initial; pl_footprint := 4 |} ] ∧
    sprite_index st' =
      if decide (sprite_index initial mod 16 + 4 = 16)
      then 16 * (sprite_index initial / 16 + 4)
      else sprite_index initial + 4.
Proof.
  apply (cursor_after_multicell 0 (solid 32 1 0) initial 4).
  - right. reflexivity.
  - reflexivity.
  - apply (bool_decide_unpack _). vm_compute. exact I.
  - apply rect_blank_sheet.
  - vm_compute. lia.
  - vm_compute. lia.
Defined.

End PackerTheorems.
(** ** Hexadecimal digits *)

Module HexFacts.
Import Hex.
#[local] Open Scope Z_scope.

(** With fuel for every digit, more fuel changes nothing. *)
Lemma hex_digits_from_more (fuel : nat) : ∀ n acc (extra : nat),
  fuel ≠ 0%nat → 0 ≤ n < 16 ^ Z.of_nat fuel →
  hex_digits_from (fuel + extra) n acc = hex_digits_from fuel n acc.
Proof.
  induction fuel as [|fuel IH]; intros n acc extra Hfuel Hn; [done|].
  cbn [Nat.add hex_digits_from].
  destruct (n / 16 =? 0) eqn:Hq; [done|].
  apply Z.eqb_neq in Hq.
  rewrite Nat2Z.inj_succ, Z.pow_succ_r in Hn by lia.
  assert (fuel ≠ 0%nat) as Hf.
  { intros ->. change (16 ^ Z.of_nat 0) with 1 in Hn. lia. }
  apply IH; [done|]. split; [apply Z.div_pos; lia|].
  apply Z.div_lt_upper_bound; lia.
Qed.

Lemma hex_digits_bound n :
  0 ≤ n → n < 16 ^ Z.of_nat (S (Z.to_nat (Z.log2 n))).
Proof.
  intros Hn. rewrite Nat2Z.inj_succ, Z2Nat.id by apply Z.log2_nonneg.
  destruct (decide (n = 0)) as [->|Hpos]; [done|].
  destruct (Z.log2_spec n) as [_ Hlt]; [lia|].
  eapply Z.lt_le_trans; [exact Hlt|].
  apply Z.pow_le_mono_l. pose proof (Z.log2_nonneg n). lia.
Qed.

(** The fuel of [hex_digits] is enough: more fuel gives the same digits. *)
Lemma hex_digits_fuel n (extra : nat) :
  0 ≤ n →
  hex_digits_from (S (Z.to_nat (Z.log2 n)) + extra) n EmptyString = hex_digits n.
Proof.
  intros Hn. unfold hex_digits. apply hex_digits_from_more; [done|].
  split; [done|]. by apply hex_digits_bound.
Qed.

End HexFacts.

(** ** The two encoders *)

Module EncoderFacts.
Import Hex Extractor Packer Encoder Vocabulary GridFacts Examples.

Lemma append_nil_r (s : string) : s +:+ EmptyString = s.
Proof.
  induction s as [|c s IH]; [done|].
  change (String c (s +:+ EmptyString) = String c s). by rewrite IH.
Qed.

Lemma append_assoc (s1 s2 s3 : string) : (s1 +:+ s2) +:+ s3 = s1 +:+ (s2 +:+ s3).
Proof.
  induction s1 as [|c s1 IH]; [done|].
  change (String c ((s1 +:+ s2) +:+ s3) = String c (s1 +:+ (s2 +:+ s3))).
  by rewrite IH.
Qed.

Lemma length_append (s1 s2 : string) :
  String.length (s1 +:+ s2) = String.length s1 + String.length s2.
Proof.
  induction s1 as [|c s1 IH]; [done|].
  change (S (String.length (s1 +:+ s2)) = S (String.length s1 + String.length s2)).
  by rewrite IH.
Qed.

Lemma concat_cons (s : string) (l : list string) :
  String.concat EmptyString (s :: l) = s +:+ String.concat EmptyString l.
Proof. destruct l; [|done]. cbn [String.concat]. by rewrite append_nil_r. Qed.

Lemma concat_app (l1 l2 : list string) :
  String.concat EmptyString (l1 ++ l2) = String.concat EmptyString l1 +:+ String.concat EmptyString l2.
Proof.
  induction l1 as [|s l1 IH]; [done|].
  rewrite <- app_comm_cons, !concat_cons, IH. by rewrite append_assoc.
Qed.

Lemma palette_index_cases (v : Z) :
  (0 ≤ v ≤ 15)%Z →
  v ∈ [0; 1; 2; 3; 4; 5; 6; 7; 8; 9; 10; 11; 12; 13; 14; 15]%Z.
Proof.
  intros Hv. rewrite !elem_of_cons, elem_of_nil. lia.
Qed.

(** The byte of two palette indices prints as their two digits. *)
Lemma format_pair (p1 p2 : Z) :
  (0 ≤ p1 ≤ 15)%Z → (0 ≤ p2 ≤ 15)%Z →
  format_02x (Z.lor (Z.shiftl p1 4) p2) = digit p1 +:+ digit p2.
Proof.
  intros H1%palette_index_cases H2%palette_index_cases.
  rewrite !elem_of_cons, elem_of_nil in H1, H2.
  repeat (destruct H1 as [->|H1]); try done;
    repeat (destruct H2 as [->|H2]); try done; reflexivity.
Qed.

Lemma digit_length (v : Z) : (0 ≤ v ≤ 15)%Z → String.length (digit v) = 1.
Proof.
  intros H1%palette_index_cases. rewrite !elem_of_cons, elem_of_nil in H1.
  repeat (destruct H1 as [->|H1]); try done.
Qed.

Lemma concat_digits_length (row : list Z) :
  Forall (λ v, 0 ≤ v ≤ 15)%Z row →
  String.length (String.concat EmptyString (digit <$> row)) = length row.
Proof.
  induction 1 as [|v row Hv _ IH]; [done|].
  rewrite fmap_cons, concat_cons, length_append, IH, digit_length by done. done.
Qed.

(** The line of [save_pico8_sprite_data] for a row of 128 palette indices
    is the concatenation of the digits of the row. *)
Lemma encode_line_digits sheet y row :
  sheet !! y = Some row → length row = 128 →
  Forall (λ v, 0 ≤ v ≤ 15)%Z row →
  encode_line sheet y = Some (String.concat EmptyString (digit <$> row)).
Proof.
  intros Hrow Hlen Hrange. unfold encode_line.
  assert (∀ n, n ≤ 64 →
    for_in ((λ k, 2 * k) <$> range n) (λ x line,
      pixel1 ← get2 sheet y x;
      pixel2 ← (if decide (x + 1 < 128) then get2 sheet y (x + 1) else Some 0%Z);
      Some (line +:+ format_02x (Z.lor (Z.shiftl pixel1 4) pixel2))) EmptyString
    = Some (String.concat EmptyString (digit <$> take (2 * n) row))) as Hloop.
  { induction n as [|n IH]; intros Hn; [done|].
    rewrite range_S, fmap_app, for_in_app, IH by lia.
    cbn [mbind option_bind fmap list_fmap for_in].
    destruct (lookup_lt_is_Some_2 row (2 * n)) as [p1 Hp1]; [lia|].
    destruct (lookup_lt_is_Some_2 row (2 * n + 1)) as [p2 Hp2]; [lia|].
    unfold get2. rewrite Hrow. cbn [mbind option_bind].
    rewrite Hp1. cbn [mbind option_bind].
    rewrite decide_True by lia. rewrite Hp2. cbn [mbind option_bind].
    f_equal.
    replace (2 * S n) with (S (S (2 * n))) by lia.
    rewrite (take_S_r row (S (2 * n)) p2) by (by rewrite <- Hp2; f_equal; lia).
    rewrite (take_S_r row (2 * n) p1) by done.
    rewrite !fmap_app, !concat_app. cbn [fmap list_fmap].
    rewrite !concat_cons. cbn [String.concat]. rewrite !append_nil_r.
    rewrite append_assoc. f_equal. apply format_pair.
    - by eapply (Forall_lookup_1 _ _ _ _ Hrange Hp1).
    - by eapply (Forall_lookup_1 _ _ _ _ Hrange Hp2). }
  rewrite Hloop by lia. by rewrite take_ge by lia.
Qed.

Lemma mapM_range_Some {B} (f : nat → option B) (k : list B) :
  (∀ i x, k !! i = Some x → f i = Some x) →
  mapM f (range (length k)) = Some k.
Proof.
  intros Hf. apply mapM_Some_2.
  apply Forall2_same_length_lookup_2; [by rewrite length_range|].
  intros i j x Hi Hx.
  assert (i < length k) by (by eapply lookup_lt_Some).
  rewrite lookup_range in Hi by done. injection Hi as <-. by apply Hf.
Qed.

(** C9: for every sheet of 128 rows of 128 palette indices, the lines that
    [save_pico8_sprite_data] writes after [__gfx__] (two pixels packed in a
    byte, printed as two hexadecimal digits) are, line for line, the lines
    of [sprite_to_hex_string] (one digit per pixel): 128 lines of 128
    characters. *)
Theorem encoders_agree (sheet : list (list Z)) :
  wf_sheet sheet →
  gfx_lines sheet = Some (sprite_to_hex_string sheet) ∧
  save_pico8_sprite_data sheet =
    Some (file_header ++ sprite_to_hex_string sheet) ∧
  length (sprite_to_hex_string sheet) = 128 ∧
  Forall (λ line, String.length line = 128) (sprite_to_hex_string sheet).
Proof.
  intros [[Hlen Hrows] Hrange].
  assert (gfx_lines sheet = Some (sprite_to_hex_string sheet)) as Hlines.
  { unfold gfx_lines.
    replace 128 with (length (sprite_to_hex_string sheet))
      by (unfold sprite_to_hex_string; by rewrite length_fmap).
    apply mapM_range_Some. intros y line Hline.
    unfold sprite_to_hex_string in Hline. rewrite list_lookup_fmap in Hline.
    destruct (sheet !! y) as [row|] eqn:Hrow; [|done].
    injection Hline as <-.
    apply encode_line_digits; [done| |].
    - by eapply (Forall_lookup_1 _ _ _ _ Hrows Hrow).
    - by eapply (Forall_lookup_1 _ _ _ _ Hrange Hrow). }
  split; [done|]. split; [unfold save_pico8_sprite_data; by rewrite Hlines|].
  split; [unfold sprite_to_hex_string; by rewrite length_fmap|].
  unfold sprite_to_hex_string. apply Forall_fmap, Forall_forall.
  intros row Hin. cbn.
  apply list_elem_of_lookup in Hin as [y Hrow].
  change (String.length (String.concat EmptyString (digit <$> row)) = 128).
  rewrite concat_digits_length.
  - by eapply (Forall_lookup_1 _ _ _ _ Hrows Hrow).
  - by eapply (Forall_lookup_1 _ _ _ _ Hrange Hrow).
Qed.

Lemma encoders_agree_witness :
  gfx_lines gradient_sheet = Some (sprite_to_hex_string gradient_sheet) ∧
  save_pico8_sprite_data gradient_sheet =
    Some (file_header ++ sprite_to_hex_string gradient_sheet) ∧
  length (sprite_to_hex_string gradient_sheet) = 128 ∧
  Forall (λ line, String.length line = 128) (sprite_to_hex_string gradient_sheet).
Proof.
  apply (encoders_agree gradient_sheet).
  apply (bool_decide_unpack _). vm_compute. exact I.
Defined.

End EncoderFacts.
(** ** Grid extraction *)

Module ExtractorFacts.
Import Palette Img Extractor Vocabulary GridFacts PaletteFacts Examples.

Lemma mapM_ext_Some {A B} (f : A → option B) (g : A → B) (l : list A) :
  (∀ x, x ∈ l → f x = Some (g x)) → mapM f l = Some (g <$> l).
Proof.
  intros Hf. apply mapM_Some_2.
  induction l as [|a l IH]; [constructor|].
  rewrite fmap_cons. constructor.
  - apply Hf. by left.
  - apply IH. intros x Hx. apply Hf. by right.
Qed.

Lemma floordiv_Some a b : b ≠ 0 → floordiv a b = Some (a / b).
Proof. intros. unfold floordiv. by rewrite decide_False. Qed.

Lemma rect_fmap_range {A} R C (f : nat → nat → A) :
  rect R C ((λ r, f r <$> range C) <$> range R).
Proof.
  split; [by rewrite length_fmap, length_range|].
  apply Forall_fmap, Forall_forall. intros r _. cbn.
  by rewrite length_fmap, length_range.
Qed.

Lemma get2_fmap_range {A} R C (f : nat → nat → A) r c :
  r < R → c < C →
  get2 ((λ r, f r <$> range C) <$> range R) r c = Some (f r c).
Proof.
  intros Hr Hc. unfold get2.
  rewrite list_lookup_fmap, lookup_range by done. cbn.
  by rewrite list_lookup_fmap, lookup_range.
Qed.

Lemma getpixel_convert_RGB img x y :
  getpixel (convert_RGB img) x y = take 3 <$> getpixel img x y.
Proof.
  unfold getpixel, convert_RGB, get2. cbn [img_pixels].
  rewrite list_lookup_fmap. destruct (img_pixels img !! y) as [row|]; [|done].
  cbn. by rewrite list_lookup_fmap.
Qed.

Lemma getpixel_wf img x y :
  wf_image img → x < img_width img → y < img_height img →
  is_Some (getpixel img x y).
Proof. intros Hwf Hx Hy. by eapply get2_is_Some. Qed.

(** A pixel of a crop is the pixel of the source at the same place, and
    black outside the source. *)
Lemma getpixel_crop image left top S px py :
  px < S → py < S →
  getpixel (crop image left top (left + S) (top + S)) px py =
  Some (default [0; 0; 0]%Z (getpixel image (left + px) (top + py))).
Proof.
  intros Hpx Hpy. unfold getpixel at 1, crop. cbn [img_pixels].
  replace (left + S - left) with S by lia.
  replace (top + S - top) with S by lia.
  by rewrite (get2_fmap_range S S
    (λ py px, default [0; 0; 0]%Z (getpixel image (left + px) (top + py)))).
Qed.

Lemma quantize_region_crop image left top S :
  quantize_region (crop image left top (left + S) (top + S)) S =
  Some ((λ py, (λ px, rgb_to_pico8_color
                        (default [0; 0; 0]%Z
                           (getpixel image (left + px) (top + py))))
                 <$> range S) <$> range S).
Proof.
  unfold quantize_region. apply mapM_ext_Some. intros py Hpy%elem_of_range.
  apply mapM_ext_Some. intros px Hpx%elem_of_range.
  by rewrite getpixel_crop.
Qed.

Lemma grid_sprites_S image S cols rows :
  grid_sprites image S cols (Datatypes.S rows) =
  grid_sprites image S cols rows ++
  ((λ gx, cell_sprite image S cols gx rows) <$> range cols).
Proof.
  unfold grid_sprites. rewrite range_S, bind_app. f_equal.
  cbn. by rewrite app_nil_r.
Qed.

Lemma length_grid_sprites image S cols rows :
  length (grid_sprites image S cols rows) = rows * cols.
Proof.
  induction rows as [|rows IH]; [done|].
  rewrite grid_sprites_S, length_app, IH, length_fmap, length_range. lia.
Qed.

Lemma lookup_grid_sprites image S cols rows gx gy :
  gy < rows → gx < cols →
  grid_sprites image S cols rows !! (gy * cols + gx) =
  Some (cell_sprite image S cols gx gy).
Proof.
  intros Hgy Hgx. induction rows as [|rows IH]; [lia|].
  rewrite grid_sprites_S.
  destruct (decide (gy < rows)) as [Hlt|Hge].
  - rewrite lookup_app_l; [by apply IH|].
    rewrite length_grid_sprites. nia.
  - assert (gy = rows) as -> by lia.
    rewrite lookup_app_r by (rewrite length_grid_sprites; lia).
    rewrite length_grid_sprites.
    replace (rows * cols + gx - rows * cols) with gx by lia.
    by rewrite list_lookup_fmap, lookup_range.
Qed.

(** The two loops of the extractor build the grid in row-major order. *)
Lemma extract_sprites_body_grid opened S :
  S ≠ 0 →
  extract_sprites_body opened S =
  Some (grid_sprites (convert_RGB opened) S
          (img_width opened / S) (img_height opened / S)).
Proof.
  intros HS. unfold extract_sprites_body.
  rewrite floordiv_Some by done. cbn [mbind option_bind].
  rewrite floordiv_Some by done. cbn [mbind option_bind img_width img_height convert_RGB].
  set (image := convert_RGB opened).
  set (cols := img_width opened / S). set (rows := img_height opened / S).
  destruct (for_range_inv
              (λ y sprites, sprites = grid_sprites image S cols y) rows
              (λ y sprites, for_in (range cols) (λ x sprites,
                 sprite_data ← quantize_region
                   (crop image (x * S) (y * S) (x * S + S) (y * S + S)) S;
                 Some (sprites ++ [ {| sp_id := length sprites; sp_x := x;
                                       sp_y := y; sp_size := S;
                                       sp_data := sprite_data |} ])) sprites)
              []) as (sprites & Hrun & ->); [done| |exact Hrun].
  intros y sprites0 Hy ->.
  destruct (for_range_inv
              (λ x sprites, sprites = grid_sprites image S cols y ++
                 ((λ gx, cell_sprite image S cols gx y) <$> range x)) cols
              (λ x sprites,
                 sprite_data ← quantize_region
                   (crop image (x * S) (y * S) (x * S + S) (y * S + S)) S;
                 Some (sprites ++ [ {| sp_id := length sprites; sp_x := x;
                                       sp_y := y; sp_size := S;
                                       sp_data := sprite_data |} ]))
              (grid_sprites image S cols y)) as (sprites & Hrun & ->).
  - cbn. by rewrite app_nil_r.
  - intros x sprites1 Hx ->. rewrite quantize_region_crop.
    cbn [mbind option_bind]. eexists. split; [done|].
    rewrite range_S, fmap_app, app_assoc. f_equal. cbn. f_equal.
    unfold cell_sprite. f_equal.
    rewrite length_app, length_grid_sprites, length_fmap, length_range. lia.
  - eexists. split; [exact Hrun|]. by rewrite grid_sprites_S.
Qed.

(** C6: for an image of width [W] and height [H] and a cell size [S] of
    8, 16 or 32, extraction returns [floor(W/S) * floor(H/S)] sprites; the
    sprite of the cell [(gridX, gridY)] is at position
    [gridY * cols + gridX] (row-major order), carries that id and that
    position, and its data are [S] rows of [S] palette indices in [0,15],
    each the quantization of the pixel of the image at that place; an
    image smaller than a cell in either dimension gives no sprite. *)
Theorem extract_grid (img : Image) (S : nat) :
  S = 8 ∨ S = 16 ∨ S = 32 →
  wf_image img →
  let cols := img_width img / S in
  let rows := img_height img / S in
  let sprites := extract_sprites_from_png (Some img) S in
  length sprites = cols * rows ∧
  (∀ gy gx, gy < rows → gx < cols →
     ∃ sp, sprites !! (gy * cols + gx) = Some sp ∧
       sp_id sp = gy * cols + gx ∧ sp_x sp = gx ∧ sp_y sp = gy ∧
       sp_size sp = S ∧ rect S S (sp_data sp) ∧
       ∀ py px, py < S → px < S →
         ∃ pixel, getpixel img (gx * S + px) (gy * S + py) = Some pixel ∧
           get2 (sp_data sp) py px = Some (rgb_to_pico8_color (take 3 pixel)) ∧
           (0 ≤ rgb_to_pico8_color (take 3 pixel) ≤ 15)%Z) ∧
  (img_width img < S ∨ img_height img < S → sprites = []).
Proof.
  intros HS Hwf cols rows sprites.
  assert (sprites = grid_sprites (convert_RGB img) S cols rows) as Hsprites.
  { unfold sprites, extract_sprites_from_png. cbn [mbind option_bind].
    rewrite extract_sprites_body_grid by lia. done. }
  rewrite Hsprites. split; [rewrite length_grid_sprites; lia|]. split.
  - intros gy gx Hgy Hgx. eexists. split; [by apply lookup_grid_sprites|].
    cbn [cell_sprite sp_id sp_x sp_y sp_size sp_data].
    do 4 (split; [done|]). split; [apply rect_fmap_range|].
    intros py px Hpy Hpx.
    destruct (getpixel_wf img (gx * S + px) (gy * S + py) Hwf) as [pixel Hpixel].
    { unfold cols in Hgx. destruct HS as [->|[->| ->]]; lia. }
    { unfold rows in Hgy. destruct HS as [->|[->| ->]]; lia. }
    exists pixel. split; [done|]. split; [|apply rgb_to_pico8_color_range].
    rewrite (get2_fmap_range S S
      (λ py px, rgb_to_pico8_color
                  (default [0; 0; 0]%Z
                     (getpixel (convert_RGB img) (gx * S + px) (gy * S + py)))))
      by done.
    by rewrite getpixel_convert_RGB, Hpixel.
  - intros Hsmall. apply nil_length_inv. rewrite length_grid_sprites.
    assert (cols = 0 ∨ rows = 0) as [-> | ->]; [|lia..].
    unfold cols, rows. destruct HS as [->|[->| ->]]; lia.
Qed.

Lemma extract_grid_witness :
  let S := 16 in
  let img := strip_144x16 in
  let cols := img_width img / S in
  let rows := img_height img / S in
  let sprites := extract_sprites_from_png (Some img) S in
  length sprites = cols * rows ∧
  (∀ gy gx, gy < rows → gx < cols →
     ∃ sp, sprites !! (gy * cols + gx) = Some sp ∧
       sp_id sp = gy * cols + gx ∧ sp_x sp = gx ∧ sp_y sp = gy ∧
       sp_size sp = S ∧ rect S S (sp_data sp) ∧
       ∀ py px, py < S → px < S →
         ∃ pixel, getpixel img (gx * S + px) (gy * S + py) = Some pixel ∧
           get2 (sp_data sp) py px = Some (rgb_to_pico8_color (take 3 pixel)) ∧
           (0 ≤ rgb_to_pico8_color (take 3 pixel) ≤ 15)%Z) ∧
  (img_width img < S ∨ img_height img < S → sprites = []).
Proof.
  apply (extract_grid strip_144x16 16).
  - right. left. reflexivity.
  - apply (bool_decide_unpack _). vm_compute. exact I.
Defined.

End ExtractorFacts.
(** ** The pipelines end to end *)

Module PipelineFacts.
Import Palette Img Extractor Packer Encoder Converter Vocabulary.
Import GridFacts PaletteFacts ExtractorFacts Examples.

(** C8, as stated, fails in [sprite_extractor.py]: its quantizer gives a
    sample with alpha 0 and the RGB of palette colour 8 the index 8, and its
    extractor, which converts the image to RGB first, turns an image of
    such transparent pixels into a sprite of index 8 throughout. *)
Lemma transparent_pixel_not_collapsed :
  rgb_to_pico8_color [255; 0; 77; 0]%Z = 8%Z ∧
  getpixel transparent_red_8x8 0 0 = Some [255; 0; 77; 0]%Z ∧
  ∃ sp, extract_sprites_from_png (Some transparent_red_8x8) 8 = [sp] ∧
    sp_data sp = replicate 8 (replicate 8 8%Z).
Proof.
  split; [by vm_compute|]. split; [by vm_compute|].
  eexists. split; [vm_compute; reflexivity|]. reflexivity.
Qed.

(** C3, as stated, fails in its count: of the 256 cells of the sheet the
    sprite fills 4, and the cells that are all 0 number 252, not 240. *)
Lemma solid_red_blank_cells :
  ∃ sheet,
    sprites_to_pico8_format (extract_sprites_from_png (Some red_16x16) 16) 16
      = Some sheet ∧
    length (filter (cell_filled sheet 0%Z) (range 256)) = 252 ∧
    length (filter (cell_filled sheet 0%Z) (range 256)) ≠ 240.
Proof.
  eexists. split; [vm_compute; reflexivity|]. by vm_compute.
Qed.

(** C3, amended: the pipeline (extract, pack, encode) on the solid 16x16
    image of palette colour 8 with cell size 16 writes, after the header,
    128 lines; the first 16 are 16 digits [8] followed by 112 digits [0],
    the other 112 are 128 digits [0]; the sprite fills the 2x2 block of
    cells at cellX = 0, cellY = 0 (slots 0, 1, 16, 17) and the remaining
    252 cells are all palette index 0. *)
Theorem solid_red_round_trip :
  ∃ sheet lines,
    sprites_to_pico8_format (extract_sprites_from_png (Some red_16x16) 16) 16
      = Some sheet ∧
    main (Some red_16x16) 16 =
      Some (file_header ++ lines) ∧
    length lines = 128 ∧
    take 16 lines =
      replicate 16 (repeat_char 16 "8" +:+ repeat_char 112 "0") ∧
    drop 16 lines = replicate 112 (repeat_char 128 "0") ∧
    filter (cell_filled sheet 8%Z) (range 256) = [0; 1; 16; 17] ∧
    filter (cell_filled sheet 0%Z) (range 256) =
      filter (λ k, k ∉ [0; 1; 16; 17]) (range 256) ∧
    length (filter (cell_filled sheet 0%Z) (range 256)) = 252.
Proof.
  eexists _, _. split; [vm_compute; reflexivity|].
  split; [vm_compute; reflexivity|]. by vm_compute.
Qed.

Lemma rect_convert_RGBA img :
  wf_image img → wf_image (convert_RGBA img).
Proof.
  unfold wf_image, convert_RGBA, rect. cbn [img_width img_height img_pixels].
  intros [Hlen Hrows]. split; [by rewrite length_fmap|].
  apply Forall_fmap. eapply Forall_impl; [exact Hrows|].
  intros row Hrow. cbn. by rewrite length_fmap.
Qed.

(** C10: the 16x16 converter rejects no size. An image that is not 16x16
    is passed to Pillow's [resize((16, 16), NEAREST)]; given that the
    resized image is 16x16, the converter returns a grid of 16 rows of 16
    palette indices in [0,15], each the quantization of the pixel of the
    resized image (of the image itself when it is 16x16 already). *)
Theorem converter_accepts_any_size
    (resize : Image → nat → nat → Resample → Image) (img : Image) :
  wf_image img →
  wf_image (resize (convert_RGBA img) 16 16 NEAREST) ∧
  img_width (resize (convert_RGBA img) 16 16 NEAREST) = 16 ∧
  img_height (resize (convert_RGBA img) 16 16 NEAREST) = 16 →
  ∃ grid, convert_png_to_pico8 resize (Some img) = Some grid ∧
    rect 16 16 grid ∧
    ∀ y x, y < 16 → x < 16 →
      ∃ pixel,
        getpixel (if decide ((img_width img, img_height img) = (16, 16))
                  then convert_RGBA img
                  else resize (convert_RGBA img) 16 16 NEAREST) x y
          = Some pixel ∧
        get2 grid y x = Some (find_closest_pico8_color pixel) ∧
        (0 ≤ find_closest_pico8_color pixel ≤ 15)%Z.
Proof.
  intros Hwf (Hwfr & Hw & Hh).
  unfold convert_png_to_pico8. cbn [mbind option_bind].
  set (sized := if decide ((img_width (convert_RGBA img),
                            img_height (convert_RGBA img)) ≠ (16, 16))
                then resize (convert_RGBA img) 16 16 NEAREST
                else convert_RGBA img).
  assert (sized = if decide ((img_width img, img_height img) = (16, 16))
                  then convert_RGBA img
                  else resize (convert_RGBA img) 16 16 NEAREST) as Hsized.
  { unfold sized. cbn [convert_RGBA img_width img_height].
    repeat case_decide; first [done | exfalso; tauto]. }
  assert (rect 16 16 (img_pixels sized)) as Hrect.
  { rewrite Hsized. destruct (decide ((img_width img, img_height img) = (16, 16)))
      as [Hsize|Hsize].
    - injection Hsize as Hw16 Hh16.
      pose proof (rect_convert_RGBA img Hwf) as Hc. unfold wf_image in Hc.
      cbn [convert_RGBA img_width img_height] in Hc.
      rewrite Hw16, Hh16 in Hc. exact Hc.
    - unfold wf_image in Hwfr. rewrite Hw, Hh in Hwfr. exact Hwfr. }
  rewrite <- Hsized.
  exists ((λ y, (λ x, find_closest_pico8_color (default [] (getpixel sized x y)))
                 <$> range 16) <$> range 16).
  split; [|split; [apply rect_fmap_range|]].
  - apply mapM_ext_Some. intros y Hy%elem_of_range.
    apply mapM_ext_Some. intros x Hx%elem_of_range.
    destruct (get2_is_Some 16 16 (img_pixels sized) y x Hrect Hy Hx) as [pixel Hpixel].
    unfold getpixel. by rewrite Hpixel.
  - intros y x Hy Hx.
    destruct (get2_is_Some 16 16 (img_pixels sized) y x Hrect Hy Hx) as [pixel Hpixel].
    exists pixel. split; [exact Hpixel|].
    split; [|apply find_closest_pico8_color_range].
    rewrite (get2_fmap_range 16 16
      (λ y x, find_closest_pico8_color (default [] (getpixel sized x y)))) by done.
    unfold getpixel. by rewrite Hpixel.
Qed.

Lemma converter_accepts_any_size_witness :
  ∃ grid, convert_png_to_pico8 nearest_resize (Some strip_144x16) = Some grid ∧
    rect 16 16 grid ∧
    ∀ y x, y < 16 → x < 16 →
      ∃ pixel,
        getpixel (if decide ((img_width strip_144x16, img_height strip_144x16)
                             = (16, 16))
                  then convert_RGBA strip_144x16
                  else nearest_resize (convert_RGBA strip_144x16) 16 16 NEAREST)
                 x y
          = Some pixel ∧
        get2 grid y x = Some (find_closest_pico8_color pixel) ∧
        (0 ≤ find_closest_pico8_color pixel ≤ 15)%Z.
Proof.
  apply (converter_accepts_any_size nearest_resize strip_144x16).
  - apply (bool_decide_unpack _). vm_compute. exact I.
  - split; [|split; reflexivity].
    apply (bool_decide_unpack _). vm_compute. exact I.
Defined.

End PipelineFacts.
(** ** The 16x16 producer *)

Module SplitFacts.
Import Encoder Split Vocabulary GridFacts.

Lemma for_in_ext {A St} (l : list A) (body1 body2 : A → St → option St) s :
  (∀ a s, a ∈ l → body1 a s = body2 a s) →
  for_in l body1 s = for_in l body2 s.
Proof.
  revert s. induction l as [|a l IH]; intros s Hext; [done|].
  cbn [for_in]. rewrite Hext by (by left).
  destruct (body2 a s) as [s'|]; [|done]. cbn [mbind option_bind].
  apply IH. intros a' s'' Hin. apply Hext. by right.
Qed.

(** [for i, a in enumerate(l)] as a loop over the indices. *)
Lemma for_in_enumerate {A St} (l : list A) (body : nat * A → St → option St) s :
  for_in (enumerate l) body s =
  for_in (range (length l))
    (λ i s, match l !! i with Some a => body (i, a) s | None => Some s end) s.
Proof.
  revert s. induction l as [|a l IH] using rev_ind; intros s; [done|].
  unfold enumerate in *. rewrite imap_app, length_app, Nat.add_comm.
  cbn [length Nat.add imap]. rewrite range_S, !for_in_app, IH.
  rewrite (for_in_ext (range (length l))
             (λ i s, match (l ++ [a]) !! i with
                     | Some a => body (i, a) s | None => Some s end)
             (λ i s, match l !! i with Some a => body (i, a) s | None => Some s end)).
  - destruct (for_in (range (length l)) _ s) as [s'|]; [|done].
    cbn [mbind option_bind for_in].
    rewrite lookup_app_r, Nat.sub_diag by done. cbn.
    by rewrite Nat.add_0_r.
  - intros i s' Hi%elem_of_range. by rewrite lookup_app_l.
Qed.

(** The lines of a quadrant of at most 8 rows go to the text cells of its
    slot, and nowhere else. *)
Lemma place_quadrant_updated (quadrant : list (list Z)) slot
    (sheet : list (list string)) :
  rect 128 16 sheet → length quadrant ≤ 8 →
  ∃ sheet', place_quadrant quadrant slot sheet = Some sheet' ∧
    updated 128 16
      (λ r c, r < 128 ∧ slot / 16 * 8 ≤ r < slot / 16 * 8 + length quadrant ∧
              c = slot mod 16)
      (λ r c, sprite_to_hex_string quadrant !! (r - slot / 16 * 8)) sheet sheet'.
Proof.
  intros Hrect Hlen. unfold place_quadrant. rewrite for_in_enumerate.
  assert (length (sprite_to_hex_string quadrant) = length quadrant) as Hhex
    by (unfold sprite_to_hex_string; by rewrite length_fmap).
  rewrite Hhex.
  set (f := λ r (c : nat), sprite_to_hex_string quadrant !! (r - slot / 16 * 8)).
  destruct (for_range_updated 128 16
              (λ i r c, r < 128 ∧ r = slot / 16 * 8 + i ∧ c = slot mod 16) f
              (length quadrant)
              (λ i s, match sprite_to_hex_string quadrant !! i with
                      | Some a =>
                          (let '(i, line) := (i, a) in
                           λ sprite_sheet,
                             if decide (slot / 16 * 8 + i < 128)
                             then set2 sprite_sheet (slot / 16 * 8 + i)
                                    (slot mod 16) line
                             else Some sprite_sheet) s
                      | None => Some s
                      end) sheet Hrect) as (sheet' & Hrun & Hupd).
  - intros i sheet1 Hi Hrect1.
    destruct (lookup_lt_is_Some_2 (sprite_to_hex_string quadrant) i) as [line Hline];
      [lia|].
    rewrite Hline. case_decide as Hguard.
    + destruct (set2_updated 128 16 sheet1 (slot / 16 * 8 + i) (slot mod 16) line Hrect1)
        as (sheet2 & Hset & Hupd2); [lia..|].
      exists sheet2. split; [done|].
      eapply updated_weaken; [| |exact Hupd2].
      * intros r c. cbv beta. lia.
      * intros r c [-> ->]. unfold f.
        replace (slot / 16 * 8 + i - slot / 16 * 8) with i by lia. done.
    + exists sheet1. split; [done|]. split; [done|].
      intros r c. split; [lia|done].
  - exists sheet'. split; [exact Hrun|].
    eapply updated_weaken; [| |exact Hupd]; [|done].
    intros r c. split.
    + intros (i & Hi & Hr & -> & ->). lia.
    + intros (Hr & Hrow & ->). exists (r - slot / 16 * 8). lia.
Qed.

(** One iteration of [generate_gfx_output] returns, and leaves every text
    cell outside the four slots of the sprite as it was. *)
Lemma place_split_sprite_frame sprite (sheet : list (list string)) :
  rect 128 16 sheet → wf_quadrants (ss_quadrants sprite) →
  ∃ sheet', place_split_sprite sprite sheet = Some sheet' ∧
    rect 128 16 sheet' ∧
    ∀ r c, c < 16 → 16 * (r / 8) + c ∉ quadrant_slots (ss_index sprite) →
      get2 sheet' r c = get2 sheet r c.
Proof.
  intros Hrect (Htl & Htr & Hbl & Hbr). unfold place_split_sprite.
  destruct (place_quadrant_updated (top_left (ss_quadrants sprite))
              (ss_index sprite * 2) sheet Hrect) as (s1 & -> & Hr1 & Hu1); [lia|].
  cbn [mbind option_bind].
  destruct (place_quadrant_updated (top_right (ss_quadrants sprite))
              (ss_index sprite * 2 + 1) s1 Hr1) as (s2 & -> & Hr2 & Hu2); [lia|].
  cbn [mbind option_bind].
  destruct (place_quadrant_updated (bottom_left (ss_quadrants sprite))
              (ss_index sprite * 2 + 16) s2 Hr2) as (s3 & -> & Hr3 & Hu3); [lia|].
  cbn [mbind option_bind].
  destruct (place_quadrant_updated (bottom_right (ss_quadrants sprite))
              (ss_index sprite * 2 + 17) s3 Hr3) as (s4 & -> & Hr4 & Hu4); [lia|].
  exists s4. split; [done|]. split; [done|].
  intros r c Hc Hfree. unfold quadrant_slots in Hfree.
  rewrite !not_elem_of_cons in Hfree.
  destruct Hfree as (H1 & H2 & H3 & H4 & _).
  destruct (Hu4 r c) as [_ Ho4]. destruct (Hu3 r c) as [_ Ho3].
  destruct (Hu2 r c) as [_ Ho2]. destruct (Hu1 r c) as [_ Ho1].
  cbv beta in Ho1, Ho2, Ho3, Ho4. rewrite Htl, Htr, Hbl, Hbr in *.
  rewrite Ho4, Ho3, Ho2, Ho1 by lia. done.
Qed.

End SplitFacts.
